(** * Similar_Images: a shallow embedding of [similar_images.py]

    The development follows the source file top-down:
    - [_bin_array]: integer to zero-padded bit vector (source l.37-39);
    - [HashedImage]: constructor and equality (l.41-79);
    - [get_similar_images]: store, index, radius queries, self-match
      exclusion (l.89-107);
    - [similar_images_pairs]: the set of unordered pairs (l.109-114).

    Python exceptions are values of [result]; the file system, the image
    hashing library and [os.path.realpath] are the fields of a [World]. *)

From Stdlib Require Import ZArith NArith String Ascii List Lia Reals Lra.
From stdpp Require Import base option list strings gmap.

Local Open Scope Z_scope.

(* [set_solver] clears hypotheses by name; the notice is of no interest. *)
#[local] Set Warnings "-clear-no-such-hyp".

(** ** Exceptions *)

Inductive exn : Type :=
| ValueError   (* numpy / scipy: bad shape, bad literal *)
| KeyError     (* dict lookup of a missing key *)
| IndexError   (* list index out of range *)
| ImageError   (* Image.open or the hash function failed *)
| OSError      (* open() of the report file failed *)
| ConfigurationError.  (* named by the specification; nothing in the
                          source raises it *)

Inductive result (A : Type) : Type :=
| Ok (a : A)
| Raise (e : exn).
Arguments Ok {A} a.
Arguments Raise {A} e.

#[global] Instance result_ret : MRet result := fun A a => Ok a.
#[global] Instance result_bind : MBind result :=
  fun A B f m => match m with Ok a => f a | Raise e => Raise e end.

(** A Python [for x in xs: body] over a state [s], stopping at the first
    exception. *)
Fixpoint for_each {A S : Type} (xs : list A) (body : A -> S -> result S)
    (s : S) : result S :=
  match xs with
  | [] => Ok s
  | x :: xs' => s' ← body x s; for_each xs' body s'
  end.

(** ** [_bin_array] (source l.37-39)

    [np.array(list(np.binary_repr(num).zfill(m))).astype(np.int8)].
    Python strings of digits are lists of characters. *)

Definition pystr := list ascii.

Fixpoint binary_repr_pos (p : positive) : pystr :=
  match p with
  | xH => ["1"%char]
  | xO q => binary_repr_pos q ++ ["0"%char]
  | xI q => binary_repr_pos q ++ ["1"%char]
  end.

(** [np.binary_repr] of a non-negative integer: no leading zeros, ["0"] for 0. *)
Definition binary_repr (num : N) : pystr :=
  match num with
  | N0 => ["0"%char]
  | Npos p => binary_repr_pos p
  end.

(** [str.zfill(m)] on a string without sign prefix: pads on the left with
    ['0'] up to width [m]; a string already that long is returned as is. *)
Definition zfill (m : nat) (s : pystr) : pystr :=
  replicate (m - length s) "0"%char ++ s.

(** One element of [astype(np.int8)] on an array of one-character strings:
    the integer literal the character spells. *)
Definition digit_value (c : ascii) : Z := Z.of_N (N_of_ascii c) - 48.

Definition is_digit (c : ascii) : bool :=
  (0 <=? digit_value c) && (digit_value c <=? 9).

Definition int8_of_char (c : ascii) : result Z :=
  if is_digit c then Ok (digit_value c) else Raise ValueError.

Fixpoint astype_int8 (cs : pystr) : result (list Z) :=
  match cs with
  | [] => Ok []
  | c :: cs' => d ← int8_of_char c; ds ← astype_int8 cs'; mret (d :: ds)
  end.

Definition _bin_array (num : N) (m : nat) : result (list Z) :=
  astype_int8 (zfill m (binary_repr num)).

(** The value of a bit vector read most-significant bit first. *)
Definition bits_value (bits : list Z) : Z :=
  fold_left (fun acc b => 2 * acc + b) bits 0.

Definition is_bit (b : Z) : Prop := b = 0 \/ b = 1.

(** ** [HashedImage] (source l.41-79) *)

Definition BITS_PER_BYTE : nat := 8.
Definition _hash_size : nat := 8.
Definition DEFAULT_SENSITIVITY : Z := 4.

(** A hash function object. Python compares functions by identity
    (l.74): [func_id] stands for the object, [func_name] is its
    [__name__] (l.60). Two functions may share a name and still differ. *)
Record hash_func : Type := { func_id : N; func_name : string }.

#[global] Instance hash_func_eq_dec : EqDecision hash_func.
Proof. solve_decision. Defined.

(** [imagehash.phash], the default of the constructor. *)
Definition phash : hash_func := {| func_id := 0; func_name := "phash" |}.

(** What the program reads from outside itself.
    - [_list_images p]: the paths [_list_images(p)] yields (l.81-87), the
      image-discovery collaborator;
    - [hash_int f p n]: [int(str(f(Image.open(p), hash_size = n)), base = 16)],
      the integer spelled by the hex digits of the image hash, or the
      exception raised by [Image.open] or by [f];
    - [realpath]: [os.path.realpath].
    The files do not change during a call: listing a directory twice
    yields the same paths, hashing a file twice the same integer. *)
Record World : Type := {
  _list_images : string -> list string;
  hash_int : hash_func -> string -> nat -> result N;
  realpath : string -> string
}.

Record HashedImage : Type := {
  path : string;
  _hash_func : hash_func;
  _hash : N;
  _hash_as_bit_arr : list Z
}.

(** [HashedImage.__init__(path, hash_func = None)] (l.44-48). *)
Definition HashedImage_init (w : World) (p : string) (hf : option hash_func)
    : result HashedImage :=
  let f := default phash hf in
  num ← hash_int w f p _hash_size;
  bits ← _bin_array num (_hash_size * BITS_PER_BYTE);
  mret {| path := p; _hash_func := f; _hash := num; _hash_as_bit_arr := bits |}.

(** [__len__] and [__getitem__] (l.63-68) expose the bit array, which is how
    numpy turns a [HashedImage] into a row of the KDTree's data. *)
Definition as_row (h : HashedImage) : list Z := _hash_as_bit_arr h.

(** [HashedImage.__eq__] (l.73-76) and the derived [!=]. *)
Definition HashedImage_eq (w : World) (self other : HashedImage) : bool :=
  if negb (bool_decide (_hash_func self = _hash_func other)) then false
  else bool_decide (realpath w (path self) = realpath w (path other)).

Definition HashedImage_ne (w : World) (self other : HashedImage) : bool :=
  negb (HashedImage_eq w self other).

(** The identity the equality contract compares. *)
Definition identity (w : World) (h : HashedImage) : hash_func * string :=
  (_hash_func h, realpath w (path h)).

(** ** Python containers

    A [dict] keeps its keys in insertion order; assigning to a key that is
    present replaces the value where it stands. *)

Abbreviation dict V := (list (string * V)) (only parsing).

Fixpoint dict_set {V : Type} (k : string) (v : V) (d : dict V) : dict V :=
  match d with
  | [] => [(k, v)]
  | (k', v') :: t =>
      if decide (k = k') then (k', v) :: t else (k', v') :: dict_set k v t
  end.

Fixpoint dict_get {V : Type} (k : string) (d : dict V) : option V :=
  match d with
  | [] => None
  | (k', v') :: t => if decide (k = k') then Some v' else dict_get k t
  end.

(** [d[k]] *)
Definition dict_getitem {V : Type} (d : dict V) (k : string) : result V :=
  match dict_get k d with
  | Some v => Ok v
  | None => Raise KeyError
  end.

Definition dict_keys {V : Type} (d : dict V) : list string := map fst d.
Definition dict_values {V : Type} (d : dict V) : list V := map snd d.

(** [l[i]] for a non-negative index. *)
Definition list_getitem {V : Type} (l : list V) (i : nat) : result V :=
  match l !! i with
  | Some v => Ok v
  | None => Raise IndexError
  end.

(** [d[k].append(v)] on a [defaultdict(list)]: a missing key is created
    with an empty list first. *)
Fixpoint defaultdict_append {V : Type} (k : string) (v : V)
    (d : dict (list V)) : dict (list V) :=
  match d with
  | [] => [(k, [v])]
  | (k', vs) :: t =>
      if decide (k = k') then (k', vs ++ [v]) :: t
      else (k', vs) :: defaultdict_append k v t
  end.

(** ** The spatial index ([scipy.spatial.KDTree], l.99 and l.103)

    The tree is a library object; it is modelled by its contract. The data
    must be a two-dimensional array: at least one row, all rows of one
    length [m]. [query_ball_point(x, r)] returns the indices of the rows
    whose Euclidean distance to [x] is at most [r] (p = 2, eps = 0); the
    library compares the squared distance [d2], the sum of the squared
    coordinate differences, with [r * r], which on integer coordinates and
    an integer radius is exact. For [0 <= r] that is the test
    [sqrt d2 <= r] ([within_euclidean] below proves it against the real
    square root); a negative radius selects as its absolute value does.
    The statements on the radius are for [0 <= r], the range of a distance
    bound (the command line admits 1..9). The ids are listed in ascending
    order here; the library promises no order and no statement below
    depends on one. *)

Fixpoint sqdist (x y : list Z) : Z :=
  match x, y with
  | a :: x', b :: y' => (a - b) * (a - b) + sqdist x' y'
  | _, _ => 0
  end.

(** Number of differing coordinates. *)
Fixpoint hamming (x y : list Z) : nat :=
  match x, y with
  | a :: x', b :: y' => ((if decide (a = b) then 0 else 1) + hamming x' y')%nat
  | _, _ => 0%nat
  end.

Definition euclidean (x y : list Z) : R := sqrt (IZR (sqdist x y)).

Record KDTree_t : Type := { kd_data : list (list Z); kd_m : nat }.

Definition KDTree (data : list (list Z)) : result KDTree_t :=
  match data with
  | [] => Raise ValueError
  | row :: rows =>
      if forallb (fun r => Nat.eqb (length r) (length row)) rows
      then Ok {| kd_data := data; kd_m := length row |}
      else Raise ValueError
  end.

Definition within (r : Z) (x y : list Z) : bool :=
  sqdist y x <=? r * r.

(** Indices (counted from [i]) of the rows of [data] within [r] of [x]. *)
Fixpoint ball_ids (r : Z) (x : list Z) (data : list (list Z)) (i : nat)
    : list nat :=
  match data with
  | [] => []
  | row :: rows =>
      if within r x row then i :: ball_ids r x rows (S i)
      else ball_ids r x rows (S i)
  end.

Definition query_ball_point (tree : KDTree_t) (x : list Z) (r : Z)
    : result (list nat) :=
  if Nat.eqb (length x) (kd_m tree) then Ok (ball_ids r x (kd_data tree) 0)
  else Raise ValueError.

(** ** [get_similar_images] (source l.89-107) *)

(** l.91-92 and l.95-96: [images[img_path] = HashedImage(img_path)]. *)
Definition add_image (w : World) (img_path : string)
    (images : dict HashedImage) : result (dict HashedImage) :=
  h ← HashedImage_init w img_path None;
  mret (dict_set img_path h images).

(** l.90-96: the store. *)
Definition build_images (w : World) (path_to_existing_images : string)
    (path_to_new_images : option string) : result (dict HashedImage) :=
  images ← for_each (_list_images w path_to_existing_images) (add_image w) [];
  match path_to_new_images with
  | Some p => for_each (_list_images w p) (add_image w) images
  | None => mret images
  end.

(** l.104-106: the inner loop over the ids of one query. *)
Definition collect_match (w : World) (image_list : list HashedImage)
    (img : string) (q : HashedImage) (id : nat)
    (res : dict (list HashedImage)) : result (dict (list HashedImage)) :=
  other ← list_getitem image_list id;
  if HashedImage_ne w q other then mret (defaultdict_append img other res)
  else mret res.

(** l.102-106: one iteration of the outer loop. [images[img]] is looked up
    once here; the source repeats the same lookup inside the inner loop. *)
Definition query_image (w : World) (images : dict HashedImage)
    (image_list : list HashedImage) (tree : KDTree_t) (sensitivity : Z)
    (img : string) (res : dict (list HashedImage))
    : result (dict (list HashedImage)) :=
  q ← dict_getitem images img;
  similar_img_ids ← query_ball_point tree (as_row q) sensitivity;
  for_each similar_img_ids (collect_match w image_list img q) res.

Definition query_path (path_to_existing_images : string)
    (path_to_new_images : option string) : string :=
  default path_to_existing_images path_to_new_images.

Definition get_similar_images (w : World) (path_to_existing_images : string)
    (path_to_new_images : option string) (sensitivity : Z)
    : result (dict (list HashedImage)) :=
  images ← build_images w path_to_existing_images path_to_new_images;
  let image_list := dict_values images in
  tree ← KDTree (map as_row image_list);
  for_each
    (_list_images w (query_path path_to_existing_images path_to_new_images))
    (query_image w images image_list tree sensitivity) [].

(** ** [similar_images_pairs] (source l.109-114)

    A [frozenset] of paths is a [gset string]; the result is a set of
    those. [frozenset((a, b))] is [{a, b}], a singleton when [a = b]. *)

Definition frozenset_pair (a b : string) : gset string := {[a; b]}.

Definition add_pairs_of (base_image : string)
    (similar_to_list : list HashedImage) (similar_pairs : gset (gset string))
    : gset (gset string) :=
  foldl (fun acc similar_img =>
           acc ∪ {[frozenset_pair base_image (path similar_img)]})
        similar_pairs similar_to_list.

Definition similar_images_pairs (similar_img_map : dict (list HashedImage))
    : gset (gset string) :=
  foldl (fun acc kv => add_pairs_of (fst kv) (snd kv) acc) ∅ similar_img_map.

(** The pipeline of [main] (l.159-160). *)
Definition pipeline (w : World) (path_to_existing_images : string)
    (path_to_new_images : option string) (sensitivity : Z)
    : result (gset (gset string)) :=
  similar_img_map ←
    get_similar_images w path_to_existing_images path_to_new_images sensitivity;
  mret (similar_images_pairs similar_img_map).

(** ** A small world to run the definitions on

    [pics/] holds four files; [pics/link.png] is a symbolic link to
    [pics/a.png]. [a] and [b] differ in 1 bit, [c] differs from [a] in
    all 64, [d] differs from [a] in 17. [new/] holds two files and
    [empty/] none. *)

Definition demo_list_images (p : string) : list string :=
  if decide (p = "pics") then
    ["pics/a.png"; "pics/b.png"; "pics/c.png"; "pics/d.png"; "pics/link.png"]
  else if decide (p = "new") then ["new/x.png"; "new/y.png"]
  else if decide (p = "pics/sub") then ["pics/b.png"]
  else [].

Definition demo_hash_int (f : hash_func) (p : string) (n : nat) : result N :=
  if decide (p = "pics/a.png") then Ok 0%N
  else if decide (p = "pics/link.png") then Ok 0%N
  else if decide (p = "pics/b.png") then Ok 1%N
  else if decide (p = "pics/c.png") then Ok 18446744073709551615%N
  else if decide (p = "pics/d.png") then Ok 131071%N
  else if decide (p = "new/x.png") then Ok 3%N
  else if decide (p = "new/y.png") then Ok 18446744073709551614%N
  else Raise ImageError.

Definition demo_realpath (p : string) : string :=
  if decide (p = "pics/link.png") then "/home/u/pics/a.png"
  else ("/home/u/" ++ p)%string.

Definition demo : World :=
  {| _list_images := demo_list_images;
     hash_int := demo_hash_int;
     realpath := demo_realpath |}.

(** ** Predicates used in the statements *)

(** Every path the store is built from (l.91 and l.95). *)
Definition all_paths (w : World) (path_to_existing_images : string)
    (path_to_new_images : option string) : list string :=
  _list_images w path_to_existing_images ++
  match path_to_new_images with
  | Some p => _list_images w p
  | None => []
  end.

(** A well-formed store: keys are unique and the value under key [k] is
    what [HashedImage(k)] returns. *)
Definition store_ok (w : World) (images : dict HashedImage) : Prop :=
  NoDup (dict_keys images) /\
  forall k h, dict_get k images = Some h -> HashedImage_init w k None = Ok h.

(** [v] is listed among the matches of [k]. *)
Definition lists {V : Type} (d : dict (list V)) (k : string) (v : V) : Prop :=
  exists vs, (k, vs) ∈ d /\ v ∈ vs.

(** [v] is a fingerprint of the store within [r] of the fingerprint stored
    under [k] and not equal to it by [__eq__]. *)
Definition is_match (w : World) (images : dict HashedImage) (r : Z)
    (k : string) (v : HashedImage) : Prop :=
  exists q, dict_get k images = Some q /\ v ∈ dict_values images /\
            within r (as_row q) (as_row v) = true /\
            HashedImage_ne w q v = true.

(** Every key of a match map has at least one match. *)
Definition nonempty_lists {V : Type} (d : dict (list V)) : Prop :=
  forall k vs, (k, vs) ∈ d -> vs <> [].

(** The hash function keeps to its output width: for [hash_size = 8] the
    hash has 8 x 8 bits, so its integer is below [2 ^ 64]. *)
Definition hash_width_ok (w : World) : Prop :=
  forall p num, hash_int w phash p _hash_size = Ok num -> (num < 2 ^ 64)%N.

(** Every image of the list can be opened and hashed. *)
Definition all_hashable (w : World) (paths : list string) : Prop :=
  forall p, p ∈ paths -> exists num, hash_int w phash p _hash_size = Ok num.



(** ** More of [HashedImage] (source l.63-68 and l.78-79) *)

(** [__len__]. *)
Definition HashedImage_len (h : HashedImage) : nat :=
  length (_hash_as_bit_arr h).

(** [__getitem__] with an integer index: the numpy array accepts
    [-len <= index < len], a negative index counting from the end, and
    raises [IndexError] otherwise. *)
Definition HashedImage_getitem (h : HashedImage) (index : Z) : result Z :=
  let len := Z.of_nat (length (_hash_as_bit_arr h)) in
  if (0 <=? index) && (index <? len)
  then list_getitem (_hash_as_bit_arr h) (Z.to_nat index)
  else if (- len <=? index) && (index <? 0)
  then list_getitem (_hash_as_bit_arr h) (Z.to_nat (len + index))
  else Raise IndexError.

(** The tuple [__hash__] hashes: [(self.path, self._hash_func)]. *)
Definition hash_key (h : HashedImage) : string * hash_func :=
  (path h, _hash_func h).

(** ** [_list_images] (source l.81-87)

    [rglob] yields paths; the generator keeps those whose suffix, lower
    cased, is an image extension. A path is the characters of [str(subp)];
    its name is what follows the last ['/'] (POSIX paths), and the suffix
    of a name is
    as [pathlib] computes it: from the last ['.'], unless that dot is the
    first or the last character of the name. *)

Definition IMAGE_EXTENSIONS : list pystr :=
  map list_ascii_of_string [".jpeg"; ".jpg"; ".gif"; ".png"; ".bmp"]%string.

(** [str.rfind(c)], searching from index [i] on. *)
Fixpoint rfind_from (c : ascii) (s : pystr) (i : nat) : option nat :=
  match s with
  | [] => None
  | x :: t =>
      match rfind_from c t (S i) with
      | Some j => Some j
      | None => if decide (x = c) then Some i else None
      end
  end.

Definition rfind (c : ascii) (s : pystr) : option nat := rfind_from c s 0.

(** [PurePath.name] of a path given as its string. *)
Definition path_name (p : pystr) : pystr :=
  match rfind "/"%char p with
  | Some i => drop (S i) p
  | None => p
  end.

(** [PurePath.suffix], from the name. *)
Definition name_suffix (name : pystr) : pystr :=
  match rfind "."%char name with
  | Some i =>
      if (0 <? i)%nat && (i <? length name - 1)%nat then drop i name else []
  | None => []
  end.

(** [str.lower] on one character: the letters A..Z. *)
Definition lower_char (c : ascii) : ascii :=
  let n := N_of_ascii c in
  if ((65 <=? n) && (n <=? 90))%N then ascii_of_N (n + 32) else c.

Definition str_lower (s : pystr) : pystr := map lower_char s.

(** l.85-86: [subp.suffix.lower() in suffix_list]. *)
Definition is_image_path (p : pystr) : bool :=
  bool_decide (str_lower (name_suffix (path_name p)) ∈ IMAGE_EXTENSIONS).

(** l.84-87 over what [rglob] yields. *)
Definition list_images_from (rglob : list pystr) : list pystr :=
  filter (fun subp => is_image_path subp = true) rglob.

(** ** [main] (source l.158-170)

    [output_as_html] (l.116-156) opens the report file and writes to it;
    it is the report sink, a parameter here: it returns, or raises what
    [open] raises. What [main] prints is a [report]: that no pair was
    found, or the pairs, with the path of the HTML report when one was
    written ([if output_html_path] is false for [None] and for the empty
    string). *)

Inductive report : Type :=
| NoSimilarPairs
| SimilarPairs (pairs : gset (gset string)) (html : option string).

Definition html_report_path (output_html_path : option string) : option string :=
  match output_html_path with
  | Some p => if decide (p = ""%string) then None else Some p
  | None => None
  end.

Definition main (w : World)
    (output_as_html : string -> gset (gset string) -> result unit)
    (path_to_existing_images : string)
    (path_to_new_images : option string) (sensitivity : Z)
    (output_html_path : option string) : result report :=
  similar_img_map ←
    get_similar_images w path_to_existing_images path_to_new_images sensitivity;
  let similar_pairs := similar_images_pairs similar_img_map in
  if decide (0 < size similar_pairs)%nat
  then
    match html_report_path output_html_path with
    | Some p =>
        _ ← output_as_html p similar_pairs;
        mret (SimilarPairs similar_pairs (Some p))
    | None => mret (SimilarPairs similar_pairs None)
    end
  else mret NoSimilarPairs.

(** * Properties *)

Example bin_array_5_8 : _bin_array 5 8 = Ok [0; 0; 0; 0; 0; 1; 0; 1].
Proof. reflexivity. Qed.

Example bin_array_wide : _bin_array 9 2 = Ok [1; 0; 0; 1].
Proof. reflexivity. Qed.


(** ** Bit vectors *)

Lemma astype_int8_digits (cs : pystr) :
  forallb is_digit cs = true -> astype_int8 cs = Ok (map digit_value cs).
Proof.
  induction cs as [|c cs IH]; simpl; [reflexivity|].
  intros [Hc Hcs]%andb_true_iff. unfold int8_of_char. rewrite Hc. simpl.
  rewrite (IH Hcs). reflexivity.
Qed.

Lemma binary_repr_pos_digits (p : positive) :
  forallb is_digit (binary_repr_pos p) = true.
Proof.
  induction p; simpl; rewrite ?forallb_app, ?IHp; reflexivity.
Qed.

Lemma zfill_digits (m : nat) (s : pystr) :
  forallb is_digit s = true -> forallb is_digit (zfill m s) = true.
Proof.
  intros Hs. unfold zfill. rewrite forallb_app, Hs, andb_true_r.
  induction (m - length s)%nat as [|k IH]; simpl; auto.
Qed.

Lemma binary_repr_digits (num : N) : forallb is_digit (binary_repr num) = true.
Proof. destruct num; simpl; [reflexivity | apply binary_repr_pos_digits]. Qed.

(** The array [_bin_array] returns, without the exception layer. *)
Lemma bin_array_eq (num : N) (m : nat) :
  _bin_array num m = Ok (map digit_value (zfill m (binary_repr num))).
Proof.
  unfold _bin_array. apply astype_int8_digits, zfill_digits, binary_repr_digits.
Qed.

Lemma binary_repr_pos_length (p : positive) :
  length (binary_repr_pos p) = Pos.size_nat p.
Proof.
  induction p; simpl; rewrite ?length_app, ?IHp; simpl; lia.
Qed.

Lemma size_nat_le_pow (p : positive) (m : nat) :
  (Npos p < 2 ^ N.of_nat m)%N -> (Pos.size_nat p <= m)%nat.
Proof.
  revert m. induction p as [q IH|q IH|]; intros [|m] H; simpl.
  - simpl in H. lia.
  - rewrite Nat2N.inj_succ, N.pow_succ_r' in H.
    apply le_n_S, IH. lia.
  - simpl in H. lia.
  - rewrite Nat2N.inj_succ, N.pow_succ_r' in H.
    apply le_n_S, IH. lia.
  - simpl in H. lia.
  - lia.
Qed.

Lemma binary_repr_length (num : N) (m : nat) :
  (num < 2 ^ N.of_nat m)%N -> (0 < m)%nat -> (length (binary_repr num) <= m)%nat.
Proof.
  destruct num as [|p]; simpl; intros H Hm; [lia|].
  rewrite binary_repr_pos_length. apply size_nat_le_pow, H.
Qed.

Lemma zfill_length (m : nat) (s : pystr) :
  length (zfill m s) = Nat.max m (length s).
Proof. unfold zfill. rewrite length_app, length_replicate. lia. Qed.

Lemma bits_value_snoc (l : list Z) (b : Z) :
  bits_value (l ++ [b]) = 2 * bits_value l + b.
Proof. unfold bits_value. rewrite fold_left_app. reflexivity. Qed.

Lemma bits_value_zeros (k : nat) (l : list Z) :
  bits_value (replicate k 0 ++ l) = bits_value l.
Proof.
  unfold bits_value. rewrite fold_left_app. f_equal.
  induction k as [|k IH]; simpl; auto.
Qed.

Lemma binary_repr_pos_value (p : positive) :
  bits_value (map digit_value (binary_repr_pos p)) = Zpos p.
Proof.
  induction p as [q IH|q IH|]; simpl; [| |reflexivity];
    rewrite map_app; change (map digit_value [?c]) with [digit_value c];
    rewrite bits_value_snoc, IH; unfold digit_value; simpl; lia.
Qed.

Lemma binary_repr_value (num : N) :
  bits_value (map digit_value (binary_repr num)) = Z.of_N num.
Proof. destruct num; simpl; [reflexivity | apply binary_repr_pos_value]. Qed.

Lemma map_digit_replicate_zero (k : nat) :
  map digit_value (replicate k "0"%char) = replicate k 0.
Proof. induction k as [|k IH]; simpl; [|rewrite IH]; reflexivity. Qed.

Lemma bin_array_value (num : N) (m : nat) :
  bits_value (map digit_value (zfill m (binary_repr num))) = Z.of_N num.
Proof.
  unfold zfill. rewrite map_app, map_digit_replicate_zero, bits_value_zeros.
  apply binary_repr_value.
Qed.

Lemma binary_repr_pos_bits (p : positive) :
  Forall is_bit (map digit_value (binary_repr_pos p)).
Proof.
  induction p as [q IH|q IH|]; simpl.
  - rewrite map_app. apply Forall_app. split; [exact IH|].
    apply Forall_singleton. right. reflexivity.
  - rewrite map_app. apply Forall_app. split; [exact IH|].
    apply Forall_singleton. left. reflexivity.
  - apply Forall_singleton. right. reflexivity.
Qed.

Lemma bin_array_bits (num : N) (m : nat) :
  Forall is_bit (map digit_value (zfill m (binary_repr num))).
Proof.
  unfold zfill. rewrite map_app, map_digit_replicate_zero.
  apply Forall_app. split.
  - apply Forall_replicate. left. reflexivity.
  - destruct num; simpl; [apply Forall_singleton; left; reflexivity|].
    apply binary_repr_pos_bits.
Qed.

(** The [j]-th bit from the right of a bit vector is the [j]-th binary
    digit of its value: the vector is most-significant bit first. *)
Lemma bits_value_testbit (l : list Z) :
  Forall is_bit l ->
  forall i b, l !! i = Some b ->
    b = Z.b2z (Z.testbit (bits_value l) (Z.of_nat (length l - 1 - i))).
Proof.
  induction l as [|c l IH] using rev_ind; intros Hl i b Hi; [discriminate|].
  apply Forall_app in Hl as [Hl Hc]. apply Forall_inv in Hc.
  rewrite bits_value_snoc, length_app. simpl.
  assert (Hcb : c = Z.b2z (Z.odd c)) by (destruct Hc as [-> | ->]; reflexivity).
  destruct (decide (i < length l)%nat) as [Hlt|Hge].
  - rewrite lookup_app_l in Hi by assumption.
    replace (Z.of_nat (length l + 1 - 1 - i))
      with (Z.succ (Z.of_nat (length l - 1 - i))) by lia.
    rewrite Hcb, Z.testbit_succ_r by lia. apply IH; assumption.
  - rewrite lookup_app_r in Hi by lia.
    destruct (i - length l)%nat as [|k] eqn:Hk; simpl in Hi; [|discriminate].
    inversion Hi; subst b.
    replace (Z.of_nat (length l + 1 - 1 - i)) with 0 by lia.
    rewrite Hcb at 2. rewrite Z.testbit_0_r. exact Hcb.
Qed.

(** C5. For a non-negative [num] that fits in [m] bits ([m >= 1]),
    [_bin_array num m] returns an array of exactly [m] entries, each 0 or 1,
    whose value read most-significant bit first is [num]; entry [i] is
    binary digit [m - 1 - i] of [num], so leading zeros are kept. *)
Theorem bin_array_exact_width (num : N) (m : nat) :
  (0 < m)%nat -> (num < 2 ^ N.of_nat m)%N ->
  exists bits, _bin_array num m = Ok bits /\
    length bits = m /\
    Forall is_bit bits /\
    bits_value bits = Z.of_N num /\
    forall i, (i < m)%nat ->
      bits !! i = Some (Z.b2z (N.testbit num (N.of_nat (m - 1 - i)))).
Proof.
  intros Hm Hnum. eexists. split; [apply bin_array_eq|].
  assert (Hlen : length (map digit_value (zfill m (binary_repr num))) = m).
  { rewrite length_map, zfill_length.
    pose proof (binary_repr_length num m Hnum Hm). lia. }
  split; [exact Hlen|]. split; [apply bin_array_bits|].
  split; [apply bin_array_value|].
  intros i Hi.
  destruct (lookup_lt_is_Some_2 (map digit_value (zfill m (binary_repr num))) i)
    as [b Hb]; [lia|].
  rewrite Hb. f_equal.
  rewrite (bits_value_testbit _ (bin_array_bits num m) i b Hb).
  rewrite Hlen, bin_array_value. f_equal.
  rewrite <- nat_N_Z. apply N2Z.inj_testbit.
Qed.

Lemma bin_array_exact_width_witness :
  (0 < 8)%nat /\ (5 < 2 ^ N.of_nat 8)%N /\
  exists bits, _bin_array 5 8 = Ok bits /\
    length bits = 8%nat /\
    Forall is_bit bits /\
    bits_value bits = Z.of_N 5 /\
    forall i, (i < 8)%nat ->
      bits !! i = Some (Z.b2z (N.testbit 5 (N.of_nat (8 - 1 - i)))).
Proof.
  split; [lia|]. split; [reflexivity|].
  apply (bin_array_exact_width 5 8); [lia | reflexivity].
Defined.

(** ** Loops and exceptions *)

Lemma bind_Ok {A B : Type} (m : result A) (f : A -> result B) (b : B) :
  (m ≫= f) = Ok b -> exists a, m = Ok a /\ f a = Ok b.
Proof. destruct m as [a|e]; simpl; [eauto | discriminate]. Qed.

(** A property kept by every successful iteration holds after the loop. *)
Lemma for_each_invariant {A S : Type} (P : S -> Prop) (body : A -> S -> result S)
    (xs : list A) (s s' : S) :
  (forall x t t', x ∈ xs -> P t -> body x t = Ok t' -> P t') ->
  P s -> for_each xs body s = Ok s' -> P s'.
Proof.
  revert s. induction xs as [|x xs IH]; simpl; intros s Hstep Hs Hrun.
  - congruence.
  - apply bind_Ok in Hrun as (t & Hx & Hrest).
    apply (IH t); [| |exact Hrest].
    + intros y u u' Hy. apply Hstep. right. exact Hy.
    + apply (Hstep x s t); [left|exact Hs|exact Hx].
Qed.

(** A loop whose iterations cannot raise (under an invariant) returns. *)
Lemma for_each_total {A S : Type} (P : S -> Prop) (body : A -> S -> result S)
    (xs : list A) (s : S) :
  (forall x t, x ∈ xs -> P t -> exists t', body x t = Ok t' /\ P t') ->
  P s -> exists s', for_each xs body s = Ok s' /\ P s'.
Proof.
  revert s. induction xs as [|x xs IH]; simpl; intros s Hstep Hs.
  - eauto.
  - destruct (Hstep x s) as (t & Hx & Ht); [left|exact Hs|].
    rewrite Hx. simpl. apply IH; [|exact Ht].
    intros y u Hy. apply Hstep. right. exact Hy.
Qed.

(** ** Dictionaries *)

Section dict_facts.
Context {V : Type}.
Implicit Types (d : dict V) (k : string) (v : V).

Lemma dict_get_set k v d k' :
  dict_get k' (dict_set k v d) =
  if decide (k' = k) then Some v else dict_get k' d.
Proof.
  induction d as [|[k0 v0] d IH]; simpl.
  - destruct (decide (k' = k)); reflexivity.
  - destruct (decide (k = k0)) as [->|Hne]; simpl.
    + destruct (decide (k' = k0)); reflexivity.
    + rewrite IH. destruct (decide (k' = k0)) as [->|Hne'].
      * destruct (decide (k0 = k)); [congruence|reflexivity].
      * reflexivity.
Qed.

Lemma dict_get_None k d : dict_get k d = None <-> k ∉ dict_keys d.
Proof.
  induction d as [|[k0 v0] d IH]; simpl.
  - split; [intros _ H; inversion H | reflexivity].
  - rewrite not_elem_of_cons. destruct (decide (k = k0)) as [->|Hne].
    + split; [discriminate | intros [H _]; congruence].
    + rewrite IH. tauto.
Qed.

Lemma dict_get_Some_elem k v d : dict_get k d = Some v -> (k, v) ∈ d.
Proof.
  induction d as [|[k0 v0] d IH]; simpl; [discriminate|].
  destruct (decide (k = k0)) as [->|Hne].
  - intros [= ->]. left.
  - intros H. right. apply IH, H.
Qed.

Lemma dict_elem_get k v d :
  NoDup (dict_keys d) -> (k, v) ∈ d -> dict_get k d = Some v.
Proof.
  induction d as [|[k0 v0] d IH]; simpl; intros Hnd Hin; [inversion Hin|].
  apply NoDup_cons in Hnd as [Hk0 Hnd].
  apply elem_of_cons in Hin as [[= -> ->]|Hin].
  - destruct (decide (k0 = k0)); [reflexivity|congruence].
  - destruct (decide (k = k0)) as [->|Hne]; [|apply IH; assumption].
    exfalso. apply Hk0. apply list_elem_of_fmap. exists (k0, v). auto.
Qed.

Lemma dict_keys_set k v d :
  dict_keys (dict_set k v d) =
  if decide (k ∈ dict_keys d) then dict_keys d else dict_keys d ++ [k].
Proof.
  induction d as [|[k0 v0] d IH]; simpl.
  - destruct (decide (k ∈ [])) as [H|_]; [inversion H|reflexivity].
  - destruct (decide (k = k0)) as [->|Hne]; simpl.
    + destruct (decide (k0 ∈ k0 :: dict_keys d)) as [_|H]; [reflexivity|].
      exfalso. apply H. left.
    + rewrite IH. destruct (decide (k ∈ dict_keys d)) as [Hin|Hnin].
      * destruct (decide (k ∈ k0 :: dict_keys d)) as [_|H]; [reflexivity|].
        exfalso. apply H. right. exact Hin.
      * destruct (decide (k ∈ k0 :: dict_keys d)) as [H|_]; [|reflexivity].
        apply elem_of_cons in H as [H|H]; congruence.
Qed.

Lemma dict_set_NoDup k v d :
  NoDup (dict_keys d) -> NoDup (dict_keys (dict_set k v d)).
Proof.
  intros Hnd. rewrite dict_keys_set.
  destruct (decide (k ∈ dict_keys d)) as [Hin|Hnin]; [exact Hnd|].
  apply NoDup_app. split; [exact Hnd|]. split.
  - intros x Hx Hx'. apply list_elem_of_singleton in Hx'. congruence.
  - apply NoDup_singleton.
Qed.

Lemma dict_set_key_in k v d : k ∈ dict_keys (dict_set k v d).
Proof.
  rewrite dict_keys_set. destruct (decide (k ∈ dict_keys d)); [assumption|].
  apply elem_of_app. right. left.
Qed.

Lemma dict_set_keys_mono k v d k' :
  k' ∈ dict_keys d -> k' ∈ dict_keys (dict_set k v d).
Proof.
  intros H. rewrite dict_keys_set.
  destruct (decide (k ∈ dict_keys d)); [assumption|].
  apply elem_of_app. left. exact H.
Qed.

(** Overwriting keeps the number of entries. *)
Lemma dict_set_length_present k v d :
  k ∈ dict_keys d -> length (dict_set k v d) = length d.
Proof.
  intros H. transitivity (length (dict_keys (dict_set k v d))).
  - unfold dict_keys. rewrite length_map. reflexivity.
  - rewrite dict_keys_set. destruct (decide (k ∈ dict_keys d)); [|tauto].
    unfold dict_keys. apply length_map.
Qed.

Lemma dict_values_elem v d :
  v ∈ dict_values d -> exists k, (k, v) ∈ d.
Proof.
  unfold dict_values. intros ([k v'] & -> & Hin)%list_elem_of_fmap.
  exists k. exact Hin.
Qed.

Lemma dict_count_key k d :
  NoDup (dict_keys d) -> k ∈ dict_keys d ->
  length (filter (fun kv => fst kv = k) d) = 1%nat.
Proof.
  induction d as [|[k0 v0] d IH]; intros Hnd Hin; [inversion Hin|].
  simpl in Hnd, Hin. apply NoDup_cons in Hnd as [Hk0 Hnd].
  rewrite filter_cons. simpl. destruct (decide (k0 = k)) as [->|Hne].
  - simpl. f_equal.
    destruct (filter _ d) as [|[k1 v1] rest] eqn:Hf; [reflexivity|].
    exfalso.
    assert (H1 : (k1, v1) ∈ filter (fun kv => fst kv = k) d)
      by (rewrite Hf; left).
    apply list_elem_of_filter in H1 as [Heq H1]. simpl in Heq. subst k1.
    apply Hk0. apply list_elem_of_fmap. exists (k, v1). auto.
  - apply IH; [exact Hnd|].
    apply elem_of_cons in Hin as [Hin|Hin]; [congruence|exact Hin].
Qed.
End dict_facts.

(** ** The store (source l.90-96) *)

Lemma HashedImage_init_inv (w : World) (p : string) (hf : option hash_func)
    (h : HashedImage) :
  HashedImage_init w p hf = Ok h ->
  path h = p /\ _hash_func h = default phash hf /\
  hash_int w (default phash hf) p _hash_size = Ok (_hash h) /\
  _hash_as_bit_arr h =
    map digit_value (zfill (_hash_size * BITS_PER_BYTE) (binary_repr (_hash h))).
Proof.
  unfold HashedImage_init. intros H.
  apply bind_Ok in H as (num & Hnum & H). rewrite bin_array_eq in H.
  simpl in H. injection H as <-. simpl. auto.
Qed.

Lemma store_ok_path (w : World) (images : dict HashedImage) k h :
  store_ok w images -> (k, h) ∈ images -> path h = k.
Proof.
  intros [Hnd Hinit] Hin. apply (dict_elem_get _ _ _ Hnd), Hinit in Hin.
  apply HashedImage_init_inv in Hin. tauto.
Qed.

Lemma add_images_spec (w : World) (paths : list string)
    (d0 d : dict HashedImage) :
  for_each paths (add_image w) d0 = Ok d -> store_ok w d0 ->
  store_ok w d /\
  forall k, k ∈ dict_keys d <-> k ∈ dict_keys d0 \/ k ∈ paths.
Proof.
  revert d0. induction paths as [|p paths IH]; simpl; intros d0 Hrun Hok.
  - injection Hrun as <-. split; [exact Hok|]. intros k. split; [auto|].
    intros [H|H]; [exact H|inversion H].
  - apply bind_Ok in Hrun as (d1 & Hadd & Hrun). unfold add_image in Hadd.
    apply bind_Ok in Hadd as (h & Hh & Hadd). injection Hadd as <-.
    destruct Hok as [Hnd Hinit].
    destruct (IH _ Hrun) as [Hok' Hkeys].
    + split; [apply dict_set_NoDup, Hnd|].
      intros k h'. rewrite dict_get_set.
      destruct (decide (k = p)) as [->|Hne]; [congruence|apply Hinit].
    + split; [exact Hok'|]. intros k. rewrite Hkeys, elem_of_cons.
      rewrite dict_keys_set. destruct (decide (p ∈ dict_keys d0)) as [Hp|Hp].
      * split; [tauto|]. intros [H|[->|H]]; auto.
      * rewrite elem_of_app, list_elem_of_singleton. tauto.
Qed.

Lemma store_ok_nil (w : World) : store_ok w [].
Proof. split; [apply NoDup_nil_2 | discriminate]. Qed.

Lemma build_images_spec (w : World) (e : string) (n : option string)
    (images : dict HashedImage) :
  build_images w e n = Ok images ->
  store_ok w images /\
  forall k, k ∈ dict_keys images <-> k ∈ all_paths w e n.
Proof.
  unfold build_images, all_paths. intros H.
  apply bind_Ok in H as (d1 & H1 & H2).
  destruct (add_images_spec _ _ _ _ H1 (store_ok_nil w)) as [Hok1 Hk1].
  destruct n as [p|].
  - destruct (add_images_spec _ _ _ _ H2 Hok1) as [Hok2 Hk2].
    split; [exact Hok2|]. intros k. rewrite Hk2, Hk1, elem_of_app.
    simpl. rewrite elem_of_nil. tauto.
  - injection H2 as <-. split; [exact Hok1|]. intros k.
    rewrite Hk1, elem_of_app. simpl. rewrite !elem_of_nil. tauto.
Qed.

Lemma count_values_by_path (d : dict HashedImage) (p : string) :
  (forall k h, (k, h) ∈ d -> path h = k) ->
  length (filter (fun h => path h = p) (dict_values d)) =
  length (filter (fun kv => fst kv = p) d).
Proof.
  induction d as [|[k0 h0] d IH]; intros Hpath; [reflexivity|].
  unfold dict_values in *. simpl map. rewrite !filter_cons. simpl fst.
  rewrite (Hpath k0 h0) by left.
  destruct (decide (k0 = p)); simpl; rewrite IH; auto;
    intros k h Hin; apply Hpath; right; exact Hin.
Qed.

(** C6. In cross-collection mode a path listed in both directories has
    exactly one entry in the store and one fingerprint in the list the
    index is built from, the one [HashedImage] makes for it; assigning to
    a key that is present replaces its value and adds no entry. *)
Theorem store_one_fingerprint_per_path (w : World) (e n p : string)
    (images : dict HashedImage) :
  build_images w e (Some n) = Ok images ->
  p ∈ _list_images w e -> p ∈ _list_images w n ->
  NoDup (dict_keys images) /\
  length (filter (fun kv => fst kv = p) images) = 1%nat /\
  length (filter (fun h => path h = p) (dict_values images)) = 1%nat /\
  dict_getitem images p = HashedImage_init w p None /\
  forall (d : dict HashedImage) (h1 h2 : HashedImage),
    dict_get p (dict_set p h2 (dict_set p h1 d)) = Some h2 /\
    length (dict_set p h2 (dict_set p h1 d)) = length (dict_set p h1 d).
Proof.
  intros Hbuild He Hn.
  destruct (build_images_spec _ _ _ _ Hbuild) as [[Hnd Hinit] Hkeys].
  assert (Hp : p ∈ dict_keys images).
  { apply Hkeys. unfold all_paths. apply elem_of_app. left. exact He. }
  assert (Hcount := dict_count_key p images Hnd Hp).
  split; [exact Hnd|]. split; [exact Hcount|]. split.
  { rewrite count_values_by_path; [exact Hcount|].
    intros k h. apply (store_ok_path w images). split; assumption. }
  split.
  { unfold dict_getitem. destruct (dict_get p images) as [h|] eqn:Hget.
    - symmetry. apply Hinit, Hget.
    - apply dict_get_None in Hget. contradiction. }
  intros d h1 h2. split.
  - rewrite dict_get_set. destruct (decide (p = p)); congruence.
  - apply dict_set_length_present, dict_set_key_in.
Qed.

Lemma store_one_fingerprint_per_path_witness :
  exists images,
    build_images demo "pics" (Some "pics/sub"%string) = Ok images /\
    "pics/b.png"%string ∈ _list_images demo "pics" /\
    "pics/b.png"%string ∈ _list_images demo "pics/sub" /\
    length (filter (fun h => path h = "pics/b.png"%string)
                   (dict_values images)) = 1%nat.
Proof.
  eexists. split; [vm_compute; reflexivity|].
  assert (He : "pics/b.png"%string ∈ _list_images demo "pics")
    by (apply list_elem_of_In; vm_compute; tauto).
  assert (Hn : "pics/b.png"%string ∈ _list_images demo "pics/sub")
    by (apply list_elem_of_In; vm_compute; tauto).
  split; [exact He|]. split; [exact Hn|].
  apply (store_one_fingerprint_per_path demo "pics" "pics/sub" "pics/b.png");
    [vm_compute; reflexivity | exact He | exact Hn].
Defined.

(** ** The radius query *)

Lemma sqdist_nonneg (x y : list Z) : 0 <= sqdist x y.
Proof.
  revert y. induction x as [|a x IH]; intros [|b y]; simpl; try lia.
  specialize (IH y). pose proof (Z.square_nonneg (a - b)). lia.
Qed.

(** On 0/1 coordinates the squared Euclidean distance counts the
    differing bits. *)
Lemma sqdist_hamming (x y : list Z) :
  Forall is_bit x -> Forall is_bit y -> sqdist x y = Z.of_nat (hamming x y).
Proof.
  intros Hx. revert y. induction Hx as [|a x Ha Hx IH]; intros y Hy.
  - reflexivity.
  - destruct Hy as [|b y Hb Hy]; [reflexivity|]. simpl.
    rewrite (IH y Hy). rewrite Nat2Z.inj_add.
    destruct Ha as [-> | ->], Hb as [-> | ->]; simpl; lia.
Qed.

(** The radius test on integers is the test on the real square root. *)
Lemma sqrt_le_iff (d r : Z) :
  0 <= d -> ((sqrt (IZR d) <= IZR r)%R <-> 0 <= r /\ d <= r * r).
Proof.
  intros Hd. split.
  - intros Hle.
    assert (Hr : 0 <= r).
    { apply le_IZR. eapply Rle_trans; [apply sqrt_pos|exact Hle]. }
    split; [exact Hr|].
    destruct (Z_le_gt_dec d (r * r)) as [H|H]; [exact H|exfalso].
    assert (Hlt : (IZR r < sqrt (IZR d))%R).
    { rewrite <- (sqrt_square (IZR r)) by (apply IZR_le; exact Hr).
      apply sqrt_lt_1_alt. rewrite <- mult_IZR. split.
      - apply IZR_le. nia.
      - apply IZR_lt. lia. }
    lra.
  - intros [Hr Hle].
    rewrite <- (sqrt_square (IZR r)) by (apply IZR_le; exact Hr).
    apply sqrt_le_1_alt. rewrite <- mult_IZR. apply IZR_le. exact Hle.
Qed.

Lemma within_euclidean (r : Z) (x y : list Z) :
  0 <= r -> (within r x y = true <-> (euclidean y x <= IZR r)%R).
Proof.
  intros Hr. unfold within, euclidean.
  rewrite sqrt_le_iff by apply sqdist_nonneg. rewrite Z.leb_le. tauto.
Qed.

Lemma ball_ids_spec (r : Z) (x : list Z) (data : list (list Z)) (k i : nat) :
  i ∈ ball_ids r x data k <->
  (k <= i)%nat /\ exists row, data !! (i - k)%nat = Some row /\
                             within r x row = true.
Proof.
  revert k. induction data as [|row rows IH]; intros k; simpl.
  - rewrite elem_of_nil. split; [tauto|]. intros [_ (row & H & _)].
    discriminate.
  - assert (Hstep : i ∈ ball_ids r x rows (S k) <->
      (S k <= i)%nat /\ exists row', (row :: rows) !! (i - k)%nat = Some row' /\
                                    within r x row' = true).
    { rewrite IH. split; intros [Hk (row' & Hrow & Hw)]; (split; [lia|]);
        exists row'; (split; [|exact Hw]).
      - replace (i - k)%nat with (S (i - S k)) by lia. exact Hrow.
      - replace (i - k)%nat with (S (i - S k)) in Hrow by lia. exact Hrow. }
    destruct (within r x row) eqn:Hw.
    + rewrite elem_of_cons, Hstep. split.
      * intros [->|[Hk Hex]]; [|split; [lia|exact Hex]].
        split; [lia|]. exists row. rewrite Nat.sub_diag. auto.
      * intros [Hk Hex]. destruct (decide (i = k)) as [->|Hne]; [left; auto|].
        right. split; [lia|exact Hex].
    + rewrite Hstep. split.
      * intros [Hk Hex]. split; [lia|exact Hex].
      * intros [Hk (row' & Hrow & Hw')]. split.
        -- destruct (decide (i = k)) as [->|Hne]; [|lia].
           rewrite Nat.sub_diag in Hrow. simpl in Hrow. congruence.
        -- exists row'. auto.
Qed.

Lemma ball_ids_lower (r : Z) (x : list Z) (data : list (list Z)) (k i : nat) :
  i ∈ ball_ids r x data k -> (k <= i)%nat.
Proof. intros H. apply ball_ids_spec in H. tauto. Qed.

Lemma ball_ids_NoDup (r : Z) (x : list Z) (data : list (list Z)) (k : nat) :
  NoDup (ball_ids r x data k).
Proof.
  revert k. induction data as [|row rows IH]; intros k; simpl.
  - apply NoDup_nil_2.
  - destruct (within r x row); [|apply IH].
    apply NoDup_cons. split; [|apply IH].
    intros H. apply ball_ids_lower in H. lia.
Qed.

Lemma KDTree_Ok (data : list (list Z)) (tree : KDTree_t) :
  KDTree data = Ok tree ->
  kd_data tree = data /\ data <> [] /\
  forall row, row ∈ data -> length row = kd_m tree.
Proof.
  unfold KDTree. destruct data as [|row rows]; [discriminate|].
  destruct (forallb _ rows) eqn:Hall; [|discriminate].
  intros [= <-]. simpl. split; [reflexivity|]. split; [discriminate|].
  intros row' [->|Hin]%elem_of_cons; [reflexivity|].
  rewrite forallb_forall in Hall. apply Nat.eqb_eq, Hall.
  apply list_elem_of_In, Hin.
Qed.

(** The ids a query returns, for a point of the tree's dimension. *)
Lemma query_ball_point_spec (data : list (list Z)) (tree : KDTree_t)
    (x : list Z) (r : Z) :
  KDTree data = Ok tree -> length x = kd_m tree ->
  query_ball_point tree x r = Ok (ball_ids r x data 0) /\
  forall id, id ∈ ball_ids r x data 0 <->
             exists row, data !! id = Some row /\ within r x row = true.
Proof.
  intros Htree Hlen. destruct (KDTree_Ok _ _ Htree) as (Hdata & _ & _).
  unfold query_ball_point. rewrite Hlen, Nat.eqb_refl, Hdata.
  split; [reflexivity|]. intros id. rewrite ball_ids_spec, Nat.sub_0_r.
  split; [tauto|]. intros H. split; [lia|exact H].
Qed.

(** ** The match map (source l.101-107) *)

Lemma lists_cons {V : Type} (k0 : string) (vs0 : list V) (d : dict (list V))
    (k : string) (v : V) :
  lists ((k0, vs0) :: d) k v <-> (k = k0 /\ v ∈ vs0) \/ lists d k v.
Proof.
  unfold lists. split.
  - intros (vs & [[= -> ->]|Hin]%elem_of_cons & Hv); [left; auto|].
    right. exists vs. auto.
  - intros [[-> Hv]|(vs & Hin & Hv)].
    + exists vs0. split; [left|exact Hv].
    + exists vs. split; [right; exact Hin|exact Hv].
Qed.

Lemma lists_nil {V : Type} (k : string) (v : V) : ~ lists [] k v.
Proof. intros (vs & Hin & _). inversion Hin. Qed.

Lemma lists_append {V : Type} (k : string) (v : V) (d : dict (list V))
    (k' : string) (v' : V) :
  lists (defaultdict_append k v d) k' v' <-> (k' = k /\ v' = v) \/ lists d k' v'.
Proof.
  induction d as [|[k0 vs0] d IH]; simpl.
  - rewrite lists_cons, list_elem_of_singleton.
    split; [tauto|]. intros [H|H]; [tauto|]. destruct (lists_nil _ _ H).
  - destruct (decide (k = k0)) as [->|Hne].
    + rewrite !lists_cons, elem_of_app, list_elem_of_singleton. tauto.
    + rewrite !lists_cons, IH. tauto.
Qed.

Lemma nonempty_lists_append {V : Type} (k : string) (v : V) (d : dict (list V)) :
  nonempty_lists d -> nonempty_lists (defaultdict_append k v d).
Proof.
  unfold nonempty_lists. induction d as [|[k0 vs0] d IH]; simpl; intros Hd k' vs.
  - intros [= -> ->]%list_elem_of_singleton. discriminate.
  - assert (Hd' : forall k1 vs1, (k1, vs1) ∈ d -> vs1 <> [])
      by (intros k1 vs1 H; apply (Hd k1 vs1); right; exact H).
    destruct (decide (k = k0)) as [->|Hne].
    + intros [[= -> ->]|Hin]%elem_of_cons; [|apply (Hd' _ _ Hin)].
      intros H. apply app_eq_nil in H as [_ H]. discriminate.
    + intros [[= -> ->]|Hin]%elem_of_cons; [apply (Hd k0 vs0); left|].
      apply (IH Hd' _ _ Hin).
Qed.

Section query_loop.
Variable w : World.
Variable image_list : list HashedImage.

(** l.104-106 for one query [img] with fingerprint [q]. *)
Lemma collect_matches_spec (img : string) (q : HashedImage) (ids : list nat)
    (res res' : dict (list HashedImage)) :
  for_each ids (collect_match w image_list img q) res = Ok res' ->
  (nonempty_lists res -> nonempty_lists res') /\
  forall k v, lists res' k v <->
    lists res k v \/
    (k = img /\ exists id, id ∈ ids /\ image_list !! id = Some v /\
                           HashedImage_ne w q v = true).
Proof.
  revert res. induction ids as [|id ids IH]; simpl; intros res Hrun.
  - injection Hrun as <-. split; [auto|]. intros k v. split; [auto|].
    intros [H|(_ & id & Hid & _)]; [exact H|inversion Hid].
  - apply bind_Ok in Hrun as (res1 & Hstep & Hrun).
    destruct (IH _ Hrun) as [Hne Hl]. clear IH Hrun.
    unfold collect_match, list_getitem in Hstep.
    destruct (image_list !! id) as [other|] eqn:Hother; [|discriminate].
    simpl in Hstep.
    destruct (HashedImage_ne w q other) eqn:Hneq; injection Hstep as <-.
    + split; [intros H; apply Hne, nonempty_lists_append, H|].
      intros k v. rewrite Hl, lists_append. split.
      * intros [[[-> ->]|H]|(-> & id' & Hid' & Hv & Hq)]; [|auto|].
        -- right. split; [reflexivity|]. exists id. split; [left|auto].
        -- right. split; [reflexivity|]. exists id'. split; [right|]; auto.
      * intros [H|(-> & id' & [->|Hid']%elem_of_cons & Hv & Hq)]; [auto| |].
        -- left. left. split; congruence.
        -- right. split; [reflexivity|]. exists id'. auto.
    + split; [exact Hne|]. intros k v. rewrite Hl. split.
      * intros [H|(-> & id' & Hid' & Hv & Hq)]; [auto|].
        right. split; [reflexivity|]. exists id'. split; [right|]; auto.
      * intros [H|(-> & id' & [->|Hid']%elem_of_cons & Hv & Hq)]; [auto| |].
        -- congruence.
        -- right. split; [reflexivity|]. exists id'. auto.
Qed.

Lemma collect_matches_total (img : string) (q : HashedImage) (ids : list nat)
    (res : dict (list HashedImage)) :
  (forall id, id ∈ ids -> is_Some (image_list !! id)) ->
  exists res', for_each ids (collect_match w image_list img q) res = Ok res'.
Proof.
  intros Hids.
  destruct (for_each_total (fun _ => True)
              (collect_match w image_list img q) ids res) as (res' & H & _);
    [|exact I|eauto].
  intros id t Hid _. unfold collect_match, list_getitem.
  destruct (Hids id Hid) as [other ->]. simpl.
  destruct (HashedImage_ne w q other); eauto.
Qed.
End query_loop.

Section outer_loop.
Variable w : World.
Variable images : dict HashedImage.
Variable tree : KDTree_t.
Variable r : Z.

Let image_list : list HashedImage := dict_values images.

Hypothesis Htree : KDTree (map as_row image_list) = Ok tree.

Lemma ball_members (q v : HashedImage) :
  (exists id, id ∈ ball_ids r (as_row q) (map as_row image_list) 0 /\
              image_list !! id = Some v) <->
  v ∈ image_list /\ within r (as_row q) (as_row v) = true.
Proof.
  split.
  - intros (id & Hid & Hv). split; [apply list_elem_of_lookup; eauto|].
    apply ball_ids_spec in Hid as (_ & row & Hrow & Hw).
    rewrite Nat.sub_0_r, list_lookup_fmap, Hv in Hrow.
    injection Hrow as <-. exact Hw.
  - intros [Hv Hw]. apply list_elem_of_lookup in Hv as [id Hv].
    exists id. split; [|exact Hv]. apply ball_ids_spec.
    split; [lia|]. exists (as_row v). split; [|exact Hw].
    rewrite Nat.sub_0_r, list_lookup_fmap, Hv. reflexivity.
Qed.

(** One iteration of l.102-106. *)
Lemma query_image_spec (img : string) (res res' : dict (list HashedImage)) :
  query_image w images image_list tree r img res = Ok res' ->
  (nonempty_lists res -> nonempty_lists res') /\
  forall k v, lists res' k v <->
    lists res k v \/ (k = img /\ is_match w images r k v).
Proof.
  unfold query_image, dict_getitem. intros Hrun.
  destruct (dict_get img images) as [q|] eqn:Hq; [|discriminate].
  simpl in Hrun. apply bind_Ok in Hrun as (ids & Hids & Hrun).
  unfold query_ball_point in Hids.
  destruct (Nat.eqb _ _); [|discriminate]. injection Hids as <-.
  destruct (KDTree_Ok _ _ Htree) as (Hdata & _). rewrite Hdata in Hrun.
  destruct (collect_matches_spec _ _ _ _ _ _ _ Hrun) as [Hne Hl].
  split; [exact Hne|]. intros k v. rewrite Hl. unfold is_match.
  split; (intros [H|[-> H]]; [left; exact H|right; split; [reflexivity|]]).
  - destruct H as (id & Hid & Hv & Hneq). exists q.
    destruct (proj1 (ball_members q v)) as [Hin Hw]; [eauto|]. auto.
  - destruct H as (q' & Hq' & Hin & Hw & Hneq). rewrite Hq in Hq'.
    injection Hq' as <-.
    destruct (proj2 (ball_members q v)) as (id & Hid & Hv); [auto|].
    exists id. auto.
Qed.

Lemma query_image_total (img : string) (res : dict (list HashedImage)) :
  img ∈ dict_keys images ->
  exists res', query_image w images image_list tree r img res = Ok res'.
Proof.
  intros Himg. unfold query_image, dict_getitem.
  destruct (dict_get img images) as [q|] eqn:Hq;
    [|apply dict_get_None in Hq; contradiction].
  simpl. destruct (KDTree_Ok _ _ Htree) as (Hdata & _ & Hrows).
  assert (Hlen : length (as_row q) = kd_m tree).
  { apply Hrows. apply list_elem_of_fmap. exists q. split; [reflexivity|].
    apply list_elem_of_fmap. exists (img, q).
    split; [reflexivity|apply dict_get_Some_elem, Hq]. }
  unfold query_ball_point. rewrite Hlen, Nat.eqb_refl. simpl.
  apply collect_matches_total. intros id Hid. rewrite Hdata in Hid.
  apply ball_ids_spec in Hid as (_ & row & Hrow & _).
  rewrite Nat.sub_0_r, list_lookup_fmap in Hrow.
  destruct (image_list !! id); [eauto|discriminate].
Qed.

(** The whole loop of l.102-106 over the query images. *)
Lemma query_loop_spec (queries : list string)
    (res res' : dict (list HashedImage)) :
  for_each queries (query_image w images image_list tree r) res = Ok res' ->
  (nonempty_lists res -> nonempty_lists res') /\
  forall k v, lists res' k v <->
    lists res k v \/ (k ∈ queries /\ is_match w images r k v).
Proof.
  revert res. induction queries as [|img queries IH]; simpl; intros res Hrun.
  - injection Hrun as <-. split; [auto|]. intros k v. split; [auto|].
    intros [H|[H _]]; [exact H|inversion H].
  - apply bind_Ok in Hrun as (res1 & Hstep & Hrun).
    destruct (IH _ Hrun) as [Hne Hl].
    destruct (query_image_spec _ _ _ Hstep) as [Hne1 Hl1].
    split; [auto|]. intros k v. rewrite Hl, Hl1, elem_of_cons. tauto.
Qed.

Lemma query_loop_total (queries : list string)
    (res : dict (list HashedImage)) :
  (forall img, img ∈ queries -> img ∈ dict_keys images) ->
  exists res',
    for_each queries (query_image w images image_list tree r) res = Ok res'.
Proof.
  intros Hq.
  destruct (for_each_total (fun _ => True)
              (query_image w images image_list tree r) queries res)
    as (res' & H & _); [|exact I|eauto].
  intros img t Himg _. destruct (query_image_total img t (Hq img Himg)).
  eauto.
Qed.
End outer_loop.

(** ** [get_similar_images] as a whole *)

Lemma query_path_listed (w : World) (e : string) (n : option string) (k : string) :
  k ∈ _list_images w (query_path e n) -> k ∈ all_paths w e n.
Proof.
  unfold query_path, all_paths. rewrite elem_of_app.
  destruct n; simpl; auto.
Qed.

(** What a returned match map contains. *)
Lemma get_similar_images_spec (w : World) (e : string) (n : option string)
    (r : Z) (res : dict (list HashedImage)) :
  get_similar_images w e n r = Ok res ->
  exists images tree,
    build_images w e n = Ok images /\
    KDTree (map as_row (dict_values images)) = Ok tree /\
    nonempty_lists res /\
    forall k v, lists res k v <->
      k ∈ _list_images w (query_path e n) /\ is_match w images r k v.
Proof.
  unfold get_similar_images. intros H.
  apply bind_Ok in H as (images & Hbuild & H).
  apply bind_Ok in H as (tree & Htree & H).
  exists images, tree. split; [exact Hbuild|]. split; [exact Htree|].
  destruct (query_loop_spec w images tree r Htree _ _ _ H) as [Hne Hl].
  split.
  - apply Hne. intros k vs Hin. inversion Hin.
  - intros k v. rewrite Hl. split; [|tauto].
    intros [Hnil|Hm]; [destruct (lists_nil _ _ Hnil)|exact Hm].
Qed.

(** Whether the call returns does not depend on the radius: it returns as
    soon as the store and the index can be built. *)
Lemma get_similar_images_total (w : World) (e : string) (n : option string)
    (r : Z) (images : dict HashedImage) (tree : KDTree_t) :
  build_images w e n = Ok images ->
  KDTree (map as_row (dict_values images)) = Ok tree ->
  exists res, get_similar_images w e n r = Ok res.
Proof.
  intros Hbuild Htree. unfold get_similar_images.
  rewrite Hbuild. simpl. rewrite Htree. simpl.
  apply (query_loop_total w images tree r Htree).
  intros img Himg. apply (build_images_spec _ _ _ _ Hbuild).
  apply query_path_listed, Himg.
Qed.

Lemma HashedImage_eq_identity (w : World) (a b : HashedImage) :
  HashedImage_eq w a b = true <-> identity w a = identity w b.
Proof.
  unfold HashedImage_eq, identity.
  destruct (bool_decide_reflect (_hash_func a = _hash_func b)) as [Hf|Hf]; simpl.
  - rewrite bool_decide_eq_true. split; [congruence|]. intros [= _ H]. exact H.
  - split; [discriminate|]. intros [= H _]. contradiction.
Qed.

(** Every fingerprint of the store was made with the default hash function. *)
Lemma stored_image_inv (w : World) (images : dict HashedImage) (v : HashedImage) :
  store_ok w images -> v ∈ dict_values images ->
  dict_get (path v) images = Some v /\ HashedImage_init w (path v) None = Ok v /\
  _hash_func v = phash.
Proof.
  intros Hok Hv. apply dict_values_elem in Hv as [k Hin].
  pose proof (store_ok_path _ _ _ _ Hok Hin) as <-.
  destruct Hok as [Hnd Hinit].
  pose proof (dict_elem_get _ _ _ Hnd Hin) as Hget.
  split; [exact Hget|]. pose proof (Hinit _ _ Hget) as Hi.
  split; [exact Hi|]. apply HashedImage_init_inv in Hi. tauto.
Qed.

(** What is known of a listed match: the key's fingerprint [q] is the one
    [HashedImage] makes for the key, both were hashed with the default
    function, and [q != m] held at l.105. *)
Lemma listed_match_inv (w : World) (e : string) (n : option string) (r : Z)
    (res : dict (list HashedImage)) (k : string) (m : HashedImage) :
  get_similar_images w e n r = Ok res -> lists res k m ->
  exists q, HashedImage_init w k None = Ok q /\ path q = k /\
    _hash_func q = phash /\ _hash_func m = phash /\
    HashedImage_ne w q m = true.
Proof.
  intros Hrun Hkm.
  destruct (get_similar_images_spec _ _ _ _ _ Hrun)
    as (images & tree & Hbuild & _ & _ & Hl).
  destruct (proj1 (Hl k m) Hkm) as (_ & q & Hq & Hv & _ & Hne).
  destruct (build_images_spec _ _ _ _ Hbuild) as [Hok _].
  pose proof (proj2 Hok _ _ Hq) as Hinit.
  destruct (HashedImage_init_inv _ _ _ _ Hinit) as (Hpath & Hf & _).
  destruct (stored_image_inv _ _ _ Hok Hv) as (_ & _ & Hfm).
  exists q. auto.
Qed.

(** C2. No entry of the returned map pairs a query with a match of the
    query's own identity (hash function, resolved path): the match and the
    query's fingerprint are unequal by [__eq__], their identities differ,
    their resolved paths differ, and the match's path is never the key. *)
Theorem no_self_match (w : World) (e : string) (n : option string) (r : Z)
    (res : dict (list HashedImage)) (k : string) (ms : list HashedImage)
    (m : HashedImage) :
  get_similar_images w e n r = Ok res -> (k, ms) ∈ res -> m ∈ ms ->
  exists q, HashedImage_init w k None = Ok q /\
    HashedImage_eq w q m = false /\
    identity w m <> identity w q /\
    identity w q = (phash, realpath w k) /\
    realpath w (path m) <> realpath w k /\
    path m <> k.
Proof.
  intros Hrun Hk Hm.
  destruct (listed_match_inv w e n r res k m Hrun)
    as (q & Hinit & Hpath & Hf & Hfm & Hne); [exists ms; auto|].
  exists q. split; [exact Hinit|].
  apply negb_true_iff in Hne. split; [exact Hne|].
  assert (Hid : identity w m <> identity w q).
  { intros Heq. symmetry in Heq. apply HashedImage_eq_identity in Heq.
    congruence. }
  split; [exact Hid|].
  assert (Hr : realpath w (path m) <> realpath w k).
  { intros Heq. apply Hid. unfold identity.
    rewrite Hfm, Hf, Hpath, Heq. reflexivity. }
  split; [unfold identity; rewrite Hf, Hpath; reflexivity|].
  split; [exact Hr|]. intros Heq. apply Hr. rewrite Heq. reflexivity.
Qed.

Lemma no_self_match_witness :
  exists res ms m,
    get_similar_images demo "pics" None 4 = Ok res /\
    (("pics/b.png"%string, ms) : string * list HashedImage) ∈ res /\ m ∈ ms /\
    path m = "pics/link.png"%string /\
    realpath demo (path m) <> realpath demo "pics/b.png" /\
    path m <> "pics/b.png"%string.
Proof.
  eexists _, _, _. split; [vm_compute; reflexivity|].
  match goal with |- ?x ∈ ?l /\ ?y ∈ ?ms /\ _ =>
    assert (Hk : x ∈ l) by (right; left);
    assert (Hm : y ∈ ms) by (right; right; left)
  end.
  split; [exact Hk|]. split; [exact Hm|]. split; [reflexivity|].
  destruct (no_self_match demo "pics" None 4 _ _ _ _ eq_refl Hk Hm)
    as (q & _ & _ & _ & _ & Hr & Hp).
  split; [exact Hr|exact Hp].
Defined.

(** C10. Every key of the returned map has a non-empty list of matches. *)
Theorem keys_have_matches (w : World) (e : string) (n : option string) (r : Z)
    (res : dict (list HashedImage)) (k : string) (ms : list HashedImage) :
  get_similar_images w e n r = Ok res -> (k, ms) ∈ res -> ms <> [].
Proof.
  intros Hrun Hk.
  destruct (get_similar_images_spec _ _ _ _ _ Hrun) as (_ & _ & _ & _ & Hne & _).
  apply (Hne k ms Hk).
Qed.

Lemma keys_have_matches_witness :
  exists res ms,
    get_similar_images demo "pics" (Some "new"%string) 4 = Ok res /\
    (("new/y.png"%string, ms) : string * list HashedImage) ∈ res /\ ms <> [].
Proof.
  eexists _, _. split; [vm_compute; reflexivity|].
  match goal with |- ?x ∈ ?l /\ _ => assert (Hk : x ∈ l) by (right; left) end.
  split; [exact Hk|].
  apply (keys_have_matches demo "pics" (Some "new"%string) 4 _ _ _ eq_refl Hk).
Defined.

(** ** [similar_images_pairs] (source l.109-114) *)

Lemma add_pairs_of_spec (k : string) (vs : list HashedImage)
    (acc : gset (gset string)) (p : gset string) :
  p ∈ add_pairs_of k vs acc <->
  p ∈ acc \/ exists v, v ∈ vs /\ p = frozenset_pair k (path v).
Proof.
  unfold add_pairs_of. revert acc.
  induction vs as [|v0 vs IH]; intros acc; simpl.
  - split; [auto|]. intros [H|(v & Hv & _)]; [exact H|inversion Hv].
  - rewrite IH, elem_of_union, elem_of_singleton. split.
    + intros [[H| ->]|(v & Hv & ->)]; [auto| |].
      * right. exists v0. split; [left|reflexivity].
      * right. exists v. split; [right; exact Hv|reflexivity].
    + intros [H|(v & [->|Hv]%elem_of_cons & ->)]; [auto|auto|].
      right. exists v. auto.
Qed.

Lemma pairs_fold_spec (d : dict (list HashedImage)) (acc : gset (gset string))
    (p : gset string) :
  p ∈ foldl (fun acc kv => add_pairs_of (fst kv) (snd kv) acc) acc d <->
  p ∈ acc \/ exists k v, lists d k v /\ p = frozenset_pair k (path v).
Proof.
  revert acc. induction d as [|[k0 vs0] d IH]; intros acc; simpl.
  - split; [auto|]. intros [H|(k & v & H & _)]; [exact H|].
    destruct (lists_nil _ _ H).
  - rewrite IH, add_pairs_of_spec. split.
    + intros [[H|(v & Hv & ->)]|(k & v & Hl & ->)]; [auto| |].
      * right. exists k0, v. split; [|reflexivity]. apply lists_cons. auto.
      * right. exists k, v. split; [|reflexivity]. apply lists_cons. auto.
    + intros [H|(k & v & [[-> Hv]|Hl]%lists_cons & ->)]; [auto| |].
      * left. right. exists v. auto.
      * right. exists k, v. auto.
Qed.

(** The pairs are those of a key and the path of one of its matches. *)
Lemma similar_images_pairs_spec (d : dict (list HashedImage)) (p : gset string) :
  p ∈ similar_images_pairs d <->
  exists k v, lists d k v /\ p = frozenset_pair k (path v).
Proof.
  unfold similar_images_pairs. rewrite pairs_fold_spec.
  split; [|auto]. intros [H|H]; [|exact H]. set_solver.
Qed.

Lemma filter_unique_length {A : Type} (P : A -> Prop) `{!forall x, Decision (P x)}
    (l : list A) (x0 : A) :
  NoDup l -> x0 ∈ l -> (forall x, x ∈ l -> (P x <-> x = x0)) ->
  length (filter P l) = 1%nat.
Proof.
  induction l as [|y l IH]; intros Hnd Hin HP; [inversion Hin|].
  apply NoDup_cons in Hnd as [Hy Hnd]. rewrite filter_cons.
  destruct (decide (P y)) as [Hpy|Hpy].
  - apply HP in Hpy; [|left]. subst y. simpl. f_equal.
    destruct (filter P l) as [|z rest] eqn:Hf; [reflexivity|exfalso].
    assert (Hz : z ∈ filter P l) by (rewrite Hf; left).
    apply list_elem_of_filter in Hz as [Hpz Hz].
    apply HP in Hpz; [|right; exact Hz]. subst z. contradiction.
  - apply IH; [exact Hnd| |].
    + apply elem_of_cons in Hin as [->|Hin]; [|exact Hin].
      exfalso. apply Hpy. apply HP; [left|reflexivity].
    + intros x Hx. apply HP. right. exact Hx.
Qed.

Lemma pair_from_members (a b x y : string) (p : gset string) :
  a <> b -> p = frozenset_pair x y -> a ∈ p -> b ∈ p -> p = frozenset_pair a b.
Proof. unfold frozenset_pair. intros Hab ->. set_solver. Qed.

(** C3. For a match map returned by [get_similar_images], every element
    of the output is a set of exactly two distinct paths, a key and one of
    its matches; whenever A lists B (and also when B lists A as well) the
    set {A, B} is in the output, and among the elements of the output
    exactly one contains both A and B. *)
Theorem pairs_unordered_once (w : World) (e : string) (n : option string)
    (r : Z) (res : dict (list HashedImage)) :
  get_similar_images w e n r = Ok res ->
  (forall p, p ∈ similar_images_pairs res ->
     size p = 2%nat /\
     exists a b, a <> b /\ p = {[a; b]} /\
       exists v, lists res a v /\ path v = b) /\
  (forall a b va, lists res a va -> path va = b ->
     a <> b /\
     ({[a; b]} : gset string) ∈ similar_images_pairs res /\
     ({[b; a]} : gset string) = {[a; b]} /\
     length (filter (fun p : gset string => a ∈ p /\ b ∈ p)
                    (elements (similar_images_pairs res))) = 1%nat).
Proof.
  intros Hrun.
  assert (Hdistinct : forall a v, lists res a v -> a <> path v).
  { intros a v Hl Heq.
    destruct (listed_match_inv w e n r res a v Hrun Hl)
      as (q & _ & Hpath & Hf & Hfv & Hne).
    apply negb_true_iff in Hne.
    assert (Hsame : HashedImage_eq w q v = true); [|congruence].
    apply HashedImage_eq_identity. unfold identity.
    rewrite Hf, Hfv, Hpath, Heq. reflexivity. }
  assert (Hsound : forall p, p ∈ similar_images_pairs res ->
    exists a b, a <> b /\ p = {[a; b]} /\ exists v, lists res a v /\ path v = b).
  { intros p (a & v & Hl & ->)%similar_images_pairs_spec.
    exists a, (path v). split; [apply Hdistinct, Hl|].
    split; [reflexivity|]. exists v. auto. }
  split.
  - intros p Hp. split; [|apply Hsound, Hp].
    destruct (Hsound p Hp) as (a & b & Hab & -> & _).
    rewrite size_union by set_solver. rewrite !size_singleton. reflexivity.
  - intros a b va Hl <-. pose proof (Hdistinct _ _ Hl) as Hab.
    assert (Hin : ({[a; path va]} : gset string) ∈ similar_images_pairs res).
    { apply similar_images_pairs_spec. exists a, va. auto. }
    split; [exact Hab|]. split; [exact Hin|]. split; [set_solver|].
    apply (filter_unique_length _ _ {[a; path va]}).
    + apply NoDup_elements.
    + apply elem_of_elements, Hin.
    + intros p Hp%elem_of_elements. split.
      * intros [Ha Hb]. destruct (Hsound p Hp) as (x & y & _ & Hxy & _).
        apply (pair_from_members a (path va) x y); auto.
      * intros ->. set_solver.
Qed.

Lemma pairs_unordered_once_witness :
  exists res,
    get_similar_images demo "pics" None 4 = Ok res /\
    ({["pics/a.png"; "pics/b.png"]} : gset string) ∈ similar_images_pairs res /\
    length (filter (fun p : gset string =>
                      "pics/a.png"%string ∈ p /\ "pics/b.png"%string ∈ p)
                   (elements (similar_images_pairs res))) = 1%nat.
Proof.
  eexists. split; [vm_compute; reflexivity|].
  pose (vb := {| path := "pics/b.png"; _hash_func := phash; _hash := 1;
                 _hash_as_bit_arr := replicate 63 0 ++ [1] |}).
  match goal with |- _ ∈ similar_images_pairs ?res /\ _ =>
    assert (Hl : lists res "pics/a.png" vb)
      by (exists [vb]; split; left)
  end.
  destruct (pairs_unordered_once demo "pics" None 4 _ eq_refl) as [_ H].
  destruct (H "pics/a.png"%string "pics/b.png"%string vb Hl eq_refl)
    as (_ & Hin & _ & Hcount).
  split; [exact Hin|exact Hcount].
Defined.

(** ** Monotonicity in the threshold *)

Lemma within_mono (r r' : Z) (x y : list Z) :
  0 <= r -> r <= r' -> within r x y = true -> within r' x y = true.
Proof.
  unfold within. rewrite !Z.leb_le. intros H0 Hle Hd. nia.
Qed.

Lemma is_match_mono (w : World) (images : dict HashedImage) (r r' : Z)
    (k : string) (v : HashedImage) :
  0 <= r -> r <= r' -> is_match w images r k v -> is_match w images r' k v.
Proof.
  intros H0 Hle (q & Hq & Hv & Hw & Hne). exists q.
  repeat split; try assumption. apply (within_mono r r'); assumption.
Qed.

(** C4. For one world and one pair of directories, with thresholds
    [0 <= T < T']: if the call returns at [T] it returns at [T'], every
    match listed at [T] is listed at [T'], and every pair the pipeline
    reports at [T] it reports at [T']. *)
Theorem matches_monotone_in_threshold (w : World) (e : string)
    (n : option string) (T T' : Z) (res : dict (list HashedImage)) :
  0 <= T -> T < T' ->
  get_similar_images w e n T = Ok res ->
  exists res',
    get_similar_images w e n T' = Ok res' /\
    (forall k v, lists res k v -> lists res' k v) /\
    similar_images_pairs res ⊆ similar_images_pairs res' /\
    pipeline w e n T = Ok (similar_images_pairs res) /\
    pipeline w e n T' = Ok (similar_images_pairs res').
Proof.
  intros H0 Hlt Hrun.
  destruct (get_similar_images_spec _ _ _ _ _ Hrun)
    as (images & tree & Hbuild & Htree & _ & Hl).
  destruct (get_similar_images_total w e n T' images tree Hbuild Htree)
    as [res' Hrun'].
  destruct (get_similar_images_spec _ _ _ _ _ Hrun')
    as (images' & tree' & Hbuild' & _ & _ & Hl').
  rewrite Hbuild in Hbuild'. injection Hbuild' as <-.
  assert (Hmono : forall k v, lists res k v -> lists res' k v).
  { intros k v [Hk Hm]%Hl. apply Hl'. split; [exact Hk|].
    apply (is_match_mono w images T T'); [lia|lia|exact Hm]. }
  exists res'. split; [exact Hrun'|]. split; [exact Hmono|]. split.
  - intros p (k & v & Hkv & ->)%similar_images_pairs_spec.
    apply similar_images_pairs_spec. exists k, v. auto.
  - unfold pipeline. rewrite Hrun, Hrun'. auto.
Qed.

Lemma matches_monotone_in_threshold_witness :
  exists res res',
    0 <= 1 /\ 1 < 4 /\
    get_similar_images demo "pics" None 1 = Ok res /\
    get_similar_images demo "pics" None 4 = Ok res' /\
    similar_images_pairs res ⊆ similar_images_pairs res'.
Proof.
  eexists _, _. split; [lia|]. split; [lia|].
  split; [vm_compute; reflexivity|].
  destruct (matches_monotone_in_threshold demo "pics" None 1 4 _
              ltac:(lia) ltac:(lia) eq_refl) as (res' & Hrun' & _ & Hsub & _).
  split; [vm_compute; reflexivity|].
  vm_compute in Hrun'. injection Hrun' as <-. exact Hsub.
Defined.

(** ** Building the store and the index without exceptions *)

Lemma HashedImage_init_total (w : World) (p : string) (num : N) :
  hash_int w phash p _hash_size = Ok num ->
  exists h, HashedImage_init w p None = Ok h.
Proof.
  intros H. unfold HashedImage_init. simpl. rewrite H. simpl.
  rewrite bin_array_eq. simpl. eauto.
Qed.

Lemma add_images_total (w : World) (paths : list string) (d0 : dict HashedImage) :
  all_hashable w paths -> exists d, for_each paths (add_image w) d0 = Ok d.
Proof.
  intros Hall.
  destruct (for_each_total (fun _ => True) (add_image w) paths d0)
    as (d & H & _); [|exact I|eauto].
  intros p t Hp _. destruct (Hall p Hp) as [num Hnum].
  destruct (HashedImage_init_total _ _ _ Hnum) as [h Hh].
  unfold add_image. rewrite Hh. simpl. eauto.
Qed.

Lemma build_images_total (w : World) (e : string) (n : option string) :
  all_hashable w (all_paths w e n) -> exists images, build_images w e n = Ok images.
Proof.
  unfold all_hashable, all_paths, build_images. intros Hall.
  destruct (add_images_total w (_list_images w e) []) as [d1 H1].
  { intros p Hp. apply Hall, elem_of_app. auto. }
  rewrite H1. simpl. destruct n as [p|]; [|eauto].
  apply add_images_total. intros p' Hp'. apply Hall, elem_of_app. auto.
Qed.

Lemma KDTree_total (data : list (list Z)) (m : nat) :
  data <> [] -> (forall row, row ∈ data -> length row = m) ->
  exists tree, KDTree data = Ok tree.
Proof.
  intros Hne Hrows. unfold KDTree. destruct data as [|row rows]; [congruence|].
  assert (Hall : forallb (fun r => Nat.eqb (length r) (length row)) rows = true).
  { apply forallb_forall. intros r Hr. apply Nat.eqb_eq.
    rewrite (Hrows row) by left. apply Hrows. right.
    apply list_elem_of_In, Hr. }
  rewrite Hall. eauto.
Qed.

Lemma stored_row_length (w : World) (images : dict HashedImage) (v : HashedImage) :
  hash_width_ok w -> store_ok w images -> v ∈ dict_values images ->
  length (as_row v) = (_hash_size * BITS_PER_BYTE)%nat.
Proof.
  intros Hw Hok Hv. destruct (stored_image_inv _ _ _ Hok Hv) as (_ & Hinit & _).
  destruct (HashedImage_init_inv _ _ _ _ Hinit) as (_ & _ & Hnum & Hbits).
  unfold as_row. rewrite Hbits, length_map, zfill_length.
  pose proof (binary_repr_length (_hash v) (_hash_size * BITS_PER_BYTE)) as Hl.
  assert ((length (binary_repr (_hash v)) <= _hash_size * BITS_PER_BYTE)%nat).
  { apply Hl; [|unfold _hash_size, BITS_PER_BYTE; lia].
    apply (Hw _ _ Hnum). }
  lia.
Qed.

Lemma stored_row_bits (w : World) (images : dict HashedImage) (v : HashedImage) :
  store_ok w images -> v ∈ dict_values images -> Forall is_bit (as_row v).
Proof.
  intros Hok Hv. destruct (stored_image_inv _ _ _ Hok Hv) as (_ & Hinit & _).
  destruct (HashedImage_init_inv _ _ _ _ Hinit) as (_ & _ & _ & Hbits).
  unfold as_row. rewrite Hbits. apply bin_array_bits.
Qed.

(** C7, at the input where the code departs from it: when no image is
    discovered the store is empty and constructing the index over an empty
    list raises [ValueError]; no map is returned. *)
Theorem empty_directory_raises (w : World) (e : string) (n : option string)
    (r : Z) :
  all_paths w e n = [] -> get_similar_images w e n r = Raise ValueError.
Proof.
  unfold all_paths. intros [He Hn]%app_eq_nil.
  unfold get_similar_images, build_images. rewrite He. simpl.
  destruct n as [p|]; [rewrite Hn|]; reflexivity.
Qed.

Lemma empty_directory_raises_witness :
  all_paths demo "empty" None = [] /\
  get_similar_images demo "empty" None DEFAULT_SENSITIVITY = Raise ValueError.
Proof.
  split; [reflexivity|].
  apply (empty_directory_raises demo "empty" None DEFAULT_SENSITIVITY).
  reflexivity.
Defined.

(** ** Threshold 0 *)

Lemma no_lists_nil {V : Type} (d : dict (list V)) :
  nonempty_lists d -> (forall k v, ~ lists d k v) -> d = [].
Proof.
  intros Hne Hno. destruct d as [|[k vs] d]; [reflexivity|exfalso].
  assert (Hin : (k, vs) ∈ (k, vs) :: d) by left.
  pose proof (Hne k vs Hin) as Hvs. destruct vs as [|v vs]; [congruence|].
  apply (Hno k v). exists (v :: vs). split; [exact Hin|left].
Qed.

Lemma within_zero (x y : list Z) :
  within 0 x y = true -> sqdist y x = 0.
Proof.
  unfold within. rewrite Z.leb_le. intros H.
  pose proof (sqdist_nonneg y x). lia.
Qed.

Lemma HashedImage_eq_refl (w : World) (h : HashedImage) :
  HashedImage_eq w h h = true.
Proof. apply HashedImage_eq_identity. reflexivity. Qed.

(** C8. For a collection of at least one image, all of which open and
    hash to 64-bit values, whose fingerprints differ pairwise in at least
    one bit: at threshold 0 [get_similar_images] returns the empty map and
    the pipeline the empty set of pairs. *)
Theorem threshold_zero_distinct_hashes (w : World) (e : string)
    (n : option string) :
  all_paths w e n <> [] ->
  hash_width_ok w ->
  all_hashable w (all_paths w e n) ->
  (forall p p' h h',
     p ∈ all_paths w e n -> p' ∈ all_paths w e n -> p <> p' ->
     HashedImage_init w p None = Ok h -> HashedImage_init w p' None = Ok h' ->
     (1 <= hamming (as_row h) (as_row h'))%nat) ->
  get_similar_images w e n 0 = Ok [] /\ pipeline w e n 0 = Ok ∅.
Proof.
  intros Hne Hw Hall Hdiff.
  destruct (build_images_total w e n Hall) as [images Hbuild].
  destruct (build_images_spec _ _ _ _ Hbuild) as [Hok Hkeys].
  destruct (KDTree_total (map as_row (dict_values images))
                         (_hash_size * BITS_PER_BYTE)) as [tree Htree].
  { intros Hnil. apply Hne. apply map_eq_nil, map_eq_nil in Hnil. subst images.
    destruct (all_paths w e n) as [|p ps]; [reflexivity|].
    exfalso. apply (elem_of_nil p). apply Hkeys. left. }
  { intros row (v & -> & Hv)%list_elem_of_fmap.
    apply (stored_row_length w images); assumption. }
  destruct (get_similar_images_total w e n 0 images tree Hbuild Htree)
    as [res Hrun].
  destruct (get_similar_images_spec _ _ _ _ _ Hrun)
    as (images' & _ & Hbuild' & _ & Hnonempty & Hl).
  rewrite Hbuild in Hbuild'. injection Hbuild' as <-.
  assert (Hres : res = []).
  { apply (no_lists_nil res Hnonempty). intros k v [Hk Hm]%Hl.
    destruct Hm as (q & Hq & Hv & Hwithin & Hneq).
    destruct (stored_image_inv _ _ _ Hok Hv) as (Hgetv & Hinitv & _).
    destruct (decide (path v = k)) as [Heq|Hdist].
    - rewrite Heq, Hq in Hgetv. injection Hgetv as ->.
      unfold HashedImage_ne in Hneq. rewrite HashedImage_eq_refl in Hneq.
      discriminate.
    - pose proof (proj2 Hok _ _ Hq) as Hinitq.
      assert (Hqv : q ∈ dict_values images).
      { apply list_elem_of_fmap. exists (k, q).
        split; [reflexivity|apply dict_get_Some_elem, Hq]. }
      pose proof (Hdiff (path v) k v q) as Hham.
      apply within_zero in Hwithin.
      rewrite (sqdist_hamming _ _ (stored_row_bits _ _ _ Hok Hv)
                 (stored_row_bits _ _ _ Hok Hqv)) in Hwithin.
      assert ((1 <= hamming (as_row v) (as_row q))%nat); [|lia].
      apply Hham; try assumption.
      + apply Hkeys. apply list_elem_of_fmap. exists (path v, v).
        split; [reflexivity|apply dict_get_Some_elem, Hgetv].
      + apply query_path_listed, Hk. }
  subst res. split; [exact Hrun|]. unfold pipeline. rewrite Hrun. reflexivity.
Qed.

Lemma demo_hash_width_ok : hash_width_ok demo.
Proof.
  intros p num. simpl. unfold demo_hash_int.
  repeat case_decide; intros [= <-]; reflexivity.
Qed.

Lemma threshold_zero_distinct_hashes_witness :
  all_paths demo "new" None <> [] /\
  get_similar_images demo "new" None 0 = Ok [] /\
  pipeline demo "new" None 0 = Ok ∅.
Proof.
  split; [discriminate|].
  apply (threshold_zero_distinct_hashes demo "new" None).
  - discriminate.
  - exact demo_hash_width_ok.
  - intros p Hp. apply list_elem_of_In in Hp. simpl in Hp.
    destruct Hp as [<-|[<-|[]]]; vm_compute; eauto.
  - intros p p' h h' Hp Hp' Hne Hh Hh'.
    apply list_elem_of_In in Hp, Hp'. simpl in Hp, Hp'.
    destruct Hp as [<-|[<-|[]]]; destruct Hp' as [<-|[<-|[]]];
      try congruence; vm_compute in Hh, Hh';
      injection Hh as <-; injection Hh' as <-; vm_compute; lia.
Defined.

(** ** Hash widths *)





(** ** The radius query inside [get_similar_images] (source l.99-106) *)

(** C1. In every call that returns, for a sensitivity [0 <= r]: the
    index is built from the store's fingerprints, and for each query
    image the radius query of l.103 returns, each once, exactly the
    positions of the stored fingerprints whose Euclidean distance to the
    query's fingerprint is at most the sensitivity, that is, those for
    which the square root of the number of differing bits is at most the
    sensitivity; the matches listed for the query are exactly those
    fingerprints, less the ones equal to the query by [__eq__]. *)
Theorem radius_query_is_euclidean_ball (w : World) (e : string)
    (n : option string) (sensitivity : Z) (res : dict (list HashedImage)) :
  get_similar_images w e n sensitivity = Ok res -> 0 <= sensitivity ->
  exists images tree,
    build_images w e n = Ok images /\
    KDTree (map as_row (dict_values images)) = Ok tree /\
    forall k, k ∈ _list_images w (query_path e n) ->
      exists q ids,
        dict_getitem images k = Ok q /\
        query_ball_point tree (as_row q) sensitivity = Ok ids /\
        NoDup ids /\
        (forall id, id ∈ ids <->
           exists h, dict_values images !! id = Some h /\
                     (euclidean (as_row h) (as_row q) <= IZR sensitivity)%R) /\
        (forall id h, dict_values images !! id = Some h ->
           (id ∈ ids <->
            (sqrt (INR (hamming (as_row h) (as_row q))) <= IZR sensitivity)%R)) /\
        (forall v, lists res k v <->
           v ∈ dict_values images /\ HashedImage_ne w q v = true /\
           (sqrt (INR (hamming (as_row v) (as_row q))) <= IZR sensitivity)%R).
Proof.
  intros Hrun Hr.
  destruct (get_similar_images_spec _ _ _ _ _ Hrun)
    as (images & tree & Hbuild & Htree & _ & Hl).
  destruct (build_images_spec _ _ _ _ Hbuild) as [Hok Hkeys].
  exists images, tree. split; [exact Hbuild|]. split; [exact Htree|].
  intros k Hk.
  assert (Hkin : k ∈ dict_keys images) by (apply Hkeys, query_path_listed, Hk).
  destruct (dict_get k images) as [q|] eqn:Hq;
    [|apply dict_get_None in Hq; contradiction].
  assert (Hqv : q ∈ dict_values images).
  { apply list_elem_of_fmap. exists (k, q).
    split; [reflexivity|apply dict_get_Some_elem, Hq]. }
  destruct (KDTree_Ok _ _ Htree) as (_ & _ & Hrows).
  assert (Hlen : length (as_row q) = kd_m tree).
  { apply Hrows. apply list_elem_of_fmap. eauto. }
  destruct (query_ball_point_spec _ _ _ sensitivity Htree Hlen) as [Hqb Hids].
  exists q, (ball_ids sensitivity (as_row q) (map as_row (dict_values images)) 0).
  split; [unfold dict_getitem; rewrite Hq; reflexivity|].
  split; [exact Hqb|]. split; [apply ball_ids_NoDup|].
  assert (Hchar : forall id,
    id ∈ ball_ids sensitivity (as_row q) (map as_row (dict_values images)) 0 <->
    exists h, dict_values images !! id = Some h /\
              (euclidean (as_row h) (as_row q) <= IZR sensitivity)%R).
  { intros id. rewrite Hids. split.
    - intros (row & Hrow & Hw). rewrite list_lookup_fmap in Hrow.
      destruct (dict_values images !! id) as [h|]; [|discriminate].
      injection Hrow as <-. exists h. split; [reflexivity|].
      apply (within_euclidean _ _ _ Hr), Hw.
    - intros (h & Hh & Hd). exists (as_row h). split.
      + rewrite list_lookup_fmap, Hh. reflexivity.
      + apply (within_euclidean _ _ _ Hr), Hd. }
  assert (Hd : forall h, h ∈ dict_values images ->
    euclidean (as_row h) (as_row q) =
    sqrt (INR (hamming (as_row h) (as_row q)))).
  { intros h Hh. unfold euclidean.
    rewrite (sqdist_hamming _ _ (stored_row_bits _ _ _ Hok Hh)
               (stored_row_bits _ _ _ Hok Hqv)), <- INR_IZR_INZ.
    reflexivity. }
  split; [exact Hchar|]. split.
  - intros id h Hh. rewrite Hchar.
    rewrite <- (Hd h) by (apply list_elem_of_lookup; eauto). split.
    + intros (h' & Hh' & Hle). rewrite Hh in Hh'. injection Hh' as <-. exact Hle.
    + intros Hle. exists h. auto.
  - intros v. rewrite Hl. split.
    + intros (_ & q' & Hq' & Hv & Hw & Hne). rewrite Hq in Hq'.
      injection Hq' as <-. split; [exact Hv|]. split; [exact Hne|].
      rewrite <- (Hd v Hv). apply (within_euclidean _ _ _ Hr), Hw.
    + intros (Hv & Hne & Hle). split; [exact Hk|]. exists q.
      split; [exact Hq|]. split; [exact Hv|]. split; [|exact Hne].
      apply (within_euclidean _ _ _ Hr). rewrite (Hd v Hv). exact Hle.
Qed.

Lemma radius_query_is_euclidean_ball_witness :
  exists res,
    get_similar_images demo "pics" None 4 = Ok res /\ 0 <= 4 /\
    exists images tree,
      build_images demo "pics" None = Ok images /\
      KDTree (map as_row (dict_values images)) = Ok tree /\
      forall k, k ∈ _list_images demo (query_path "pics" None) ->
        exists q ids,
          dict_getitem images k = Ok q /\
          query_ball_point tree (as_row q) 4 = Ok ids /\
          NoDup ids /\
          forall v, lists res k v <->
            v ∈ dict_values images /\ HashedImage_ne demo q v = true /\
            (sqrt (INR (hamming (as_row v) (as_row q))) <= IZR 4)%R.
Proof.
  eexists. split; [vm_compute; reflexivity|]. split; [lia|].
  destruct (radius_query_is_euclidean_ball demo "pics" None 4 _ eq_refl)
    as (images & tree & Hbuild & Htree & H); [lia|].
  exists images, tree. split; [exact Hbuild|]. split; [exact Htree|].
  intros k Hk. destruct (H k Hk) as (q & ids & Hq & Hids & Hnd & _ & _ & Hl).
  exists q, ids. auto.
Defined.

(** * Further properties of the code *)

Example list_images_from_demo :
  map string_of_list_ascii
    (list_images_from
       (map list_ascii_of_string
          ["d/a.PNG"; "d/b.txt"; "d/.png"; "d/c.tar.Jpeg"; "d/x.png/y";
           "d/e.gif."; "f.bmp"; "d/png"]%string))
  = ["d/a.PNG"; "d/c.tar.Jpeg"; "f.bmp"]%string.
Proof. vm_compute. reflexivity. Qed.

(** ** [_bin_array] beyond the width *)

Lemma size_nat_gt_pow (p : positive) :
  (Npos p < 2 ^ N.of_nat (Pos.size_nat p))%N.
Proof.
  induction p as [q IH|q IH|]; simpl Pos.size_nat;
    rewrite ?Nat2N.inj_succ, ?N.pow_succ_r'; simpl; lia.
Qed.

Lemma binary_repr_length_size (num : N) :
  length (binary_repr num) = Nat.max 1 (N.size_nat num).
Proof.
  destruct num as [|p]; simpl; [reflexivity|].
  rewrite binary_repr_pos_length. destruct p; simpl; lia.
Qed.

Lemma pow_le_size_nat (num : N) (m : nat) :
  (2 ^ N.of_nat m <= num)%N -> (m < N.size_nat num)%nat.
Proof.
  destruct num as [|p]; simpl; intros H.
  - pose proof (N.pow_nonzero 2 (N.of_nat m)). lia.
  - destruct (le_lt_dec (Pos.size_nat p) m) as [Hle|Hlt]; [exfalso|exact Hlt].
    pose proof (size_nat_gt_pow p) as Hp.
    assert (2 ^ N.of_nat (Pos.size_nat p) <= 2 ^ N.of_nat m)%N
      by (apply N.pow_le_mono_r; lia).
    lia.
Qed.

(** X1. [_bin_array] never raises on a non-negative integer and never
    drops a digit: the array always spells [num], most-significant bit
    first; it has [m] entries or, when [num] needs more, as many as [num]
    has binary digits, which is more than [m] as soon as [2 ^ m <= num]. *)
Theorem bin_array_never_truncates (num : N) (m : nat) :
  exists bits, _bin_array num m = Ok bits /\
    Forall is_bit bits /\
    bits_value bits = Z.of_N num /\
    length bits = Nat.max m (Nat.max 1 (N.size_nat num)) /\
    ((2 ^ N.of_nat m <= num)%N -> (m < length bits)%nat).
Proof.
  eexists. split; [apply bin_array_eq|].
  split; [apply bin_array_bits|]. split; [apply bin_array_value|].
  assert (Hlen : length (map digit_value (zfill m (binary_repr num))) =
                 Nat.max m (Nat.max 1 (N.size_nat num))).
  { rewrite length_map, zfill_length, binary_repr_length_size. reflexivity. }
  split; [exact Hlen|]. intros Hbig. rewrite Hlen.
  apply pow_le_size_nat in Hbig. lia.
Qed.

Lemma hamming_zero_eq (x y : list Z) :
  length x = length y -> hamming x y = 0%nat -> x = y.
Proof.
  revert y. induction x as [|a x IH]; intros [|b y]; simpl; try discriminate;
    [reflexivity|].
  intros [= Hlen] H. destruct (decide (a = b)) as [->|Hne]; [|lia].
  f_equal. apply IH; [exact Hlen|lia].
Qed.

(** X2. Two different integers that both fit in [m] bits give arrays of
    the same length that differ in at least one position. *)
Theorem distinct_integers_differ_in_a_bit (num num' : N) (m : nat) :
  (0 < m)%nat -> (num < 2 ^ N.of_nat m)%N -> (num' < 2 ^ N.of_nat m)%N ->
  num <> num' ->
  exists bits bits',
    _bin_array num m = Ok bits /\ _bin_array num' m = Ok bits' /\
    length bits = length bits' /\
    (1 <= hamming bits bits')%nat /\ 1 <= sqdist bits bits'.
Proof.
  intros Hm Hnum Hnum' Hne. eexists _, _.
  split; [apply bin_array_eq|]. split; [apply bin_array_eq|].
  set (bits := map digit_value (zfill m (binary_repr num))).
  set (bits' := map digit_value (zfill m (binary_repr num'))).
  assert (Hlen : length bits = length bits').
  { unfold bits, bits'. rewrite !length_map, !zfill_length.
    pose proof (binary_repr_length num m Hnum Hm).
    pose proof (binary_repr_length num' m Hnum' Hm). lia. }
  split; [exact Hlen|].
  assert (Hham : (1 <= hamming bits bits')%nat).
  { destruct (hamming bits bits') eqn:Hz; [exfalso|lia].
    apply (hamming_zero_eq _ _ Hlen) in Hz. apply Hne, N2Z.inj.
    rewrite <- (bin_array_value num m), <- (bin_array_value num' m).
    fold bits bits'. rewrite Hz. reflexivity. }
  split; [exact Hham|].
  rewrite (sqdist_hamming bits bits'); [lia| |]; apply bin_array_bits.
Qed.

Lemma distinct_integers_differ_in_a_bit_witness :
  exists bits bits',
    _bin_array 5 4 = Ok bits /\ _bin_array 7 4 = Ok bits' /\
    length bits = length bits' /\
    (1 <= hamming bits bits')%nat /\ 1 <= sqdist bits bits'.
Proof.
  apply (distinct_integers_differ_in_a_bit 5 7 4);
    [lia | reflexivity | reflexivity | discriminate].
Defined.

(** ** Indexing a [HashedImage] *)

Lemma bin_array_lookup (num : N) (m i : nat) :
  (num < 2 ^ N.of_nat m)%N -> (i < m)%nat ->
  map digit_value (zfill m (binary_repr num)) !! i =
  Some (Z.b2z (N.testbit num (N.of_nat (m - 1 - i)))).
Proof.
  intros Hnum Hi.
  assert (Hlen : length (map digit_value (zfill m (binary_repr num))) = m).
  { rewrite length_map, zfill_length.
    pose proof (binary_repr_length num m Hnum). lia. }
  destruct (lookup_lt_is_Some_2 (map digit_value (zfill m (binary_repr num))) i)
    as [b Hb]; [lia|].
  rewrite Hb. f_equal.
  rewrite (bits_value_testbit _ (bin_array_bits num m) i b Hb).
  rewrite Hlen, bin_array_value. f_equal.
  rewrite <- nat_N_Z. apply N2Z.inj_testbit.
Qed.

(** X3. A [HashedImage] made by the constructor from a hash below
    [2 ^ 64] has length 64; item [i], for [0 <= i < 64], is binary digit
    [63 - i] of the hash; a negative index [-64 <= i < 0] reads item
    [64 + i]; any other index raises [IndexError]. *)
Theorem hashed_image_indexing (w : World) (p : string)
    (hf : option hash_func) (h : HashedImage) :
  HashedImage_init w p hf = Ok h -> (_hash h < 2 ^ 64)%N ->
  HashedImage_len h = 64%nat /\
  (forall i, 0 <= i < 64 ->
     HashedImage_getitem h i =
     Ok (Z.b2z (N.testbit (_hash h) (Z.to_N (63 - i))))) /\
  (forall i, -64 <= i < 0 ->
     HashedImage_getitem h i = HashedImage_getitem h (64 + i)) /\
  (forall i, i < -64 \/ 64 <= i -> HashedImage_getitem h i = Raise IndexError).
Proof.
  intros Hinit Hnum.
  destruct (HashedImage_init_inv _ _ _ _ Hinit) as (_ & _ & _ & Hbits).
  change (_hash_size * BITS_PER_BYTE)%nat with 64%nat in Hbits.
  assert (Hlen : length (_hash_as_bit_arr h) = 64%nat).
  { rewrite Hbits, length_map, zfill_length.
    pose proof (binary_repr_length (_hash h) 64 Hnum). lia. }
  split; [exact Hlen|].
  assert (Hget : forall i, 0 <= i < 64 ->
    HashedImage_getitem h i =
    Ok (Z.b2z (N.testbit (_hash h) (Z.to_N (63 - i))))).
  { intros i Hi. unfold HashedImage_getitem. rewrite Hlen.
    replace ((0 <=? i) && (i <? Z.of_nat 64)) with true
      by (symmetry; apply andb_true_iff; split; [apply Z.leb_le|apply Z.ltb_lt]; lia).
    unfold list_getitem. rewrite Hbits.
    rewrite (bin_array_lookup (_hash h) 64 (Z.to_nat i) Hnum) by lia.
    do 3 f_equal. lia. }
  split; [exact Hget|]. split.
  - intros i Hi. rewrite (Hget (64 + i)) by lia.
    unfold HashedImage_getitem. rewrite Hlen.
    replace ((0 <=? i) && (i <? Z.of_nat 64)) with false
      by (symmetry; apply andb_false_iff; left; apply Z.leb_gt; lia).
    replace ((- Z.of_nat 64 <=? i) && (i <? 0)) with true
      by (symmetry; apply andb_true_iff; split; [apply Z.leb_le|apply Z.ltb_lt]; lia).
    unfold list_getitem. rewrite Hbits.
    rewrite (bin_array_lookup (_hash h) 64 (Z.to_nat (Z.of_nat 64 + i)) Hnum)
      by lia.
    do 3 f_equal. lia.
  - intros i Hi. unfold HashedImage_getitem. rewrite Hlen.
    destruct Hi as [Hi|Hi].
    + replace ((0 <=? i) && (i <? Z.of_nat 64)) with false
        by (symmetry; apply andb_false_iff; left; apply Z.leb_gt; lia).
      replace ((- Z.of_nat 64 <=? i) && (i <? 0)) with false
        by (symmetry; apply andb_false_iff; left; apply Z.leb_gt; lia).
      reflexivity.
    + replace ((0 <=? i) && (i <? Z.of_nat 64)) with false
        by (symmetry; apply andb_false_iff; right; apply Z.ltb_ge; lia).
      replace ((- Z.of_nat 64 <=? i) && (i <? 0)) with false
        by (symmetry; apply andb_false_iff; right; apply Z.ltb_ge; lia).
      reflexivity.
Qed.

Lemma hashed_image_indexing_witness :
  exists h,
    HashedImage_init demo "pics/d.png" None = Ok h /\ (_hash h < 2 ^ 64)%N /\
    HashedImage_len h = 64%nat /\
    HashedImage_getitem h 46 = Ok 0 /\ HashedImage_getitem h 47 = Ok 1 /\
    HashedImage_getitem h (-1) = Ok 1 /\
    HashedImage_getitem h 64 = Raise IndexError.
Proof.
  eexists. split; [vm_compute; reflexivity|]. split; [reflexivity|].
  match goal with |- HashedImage_len ?h = _ /\ _ =>
    destruct (hashed_image_indexing demo "pics/d.png" None h eq_refl eq_refl)
      as (Hlen & Hget & Hneg & Hout)
  end.
  split; [exact Hlen|]. split; [apply (Hget 46); lia|].
  split; [apply (Hget 47); lia|].
  split; [rewrite (Hneg (-1)) by lia; apply (Hget (64 + -1)); lia|].
  apply Hout. lia.
Defined.

(** ** Equality and hashing of [HashedImage] *)

(** X4. [__eq__] is an equivalence relation that compares the hash
    function object and the resolved path only: it is reflexive, symmetric
    and transitive, [!=] is its negation, objects with the same [__hash__]
    tuple are equal, the hash value and the bit array play no part, and
    two different function objects make two images unequal even when the
    functions share their [__name__] and the paths are the same. *)
Theorem eq_compares_identity_only (w : World) :
  (forall a, HashedImage_eq w a a = true) /\
  (forall a b, HashedImage_eq w a b = HashedImage_eq w b a) /\
  (forall a b c, HashedImage_eq w a b = true -> HashedImage_eq w b c = true ->
                 HashedImage_eq w a c = true) /\
  (forall a b, HashedImage_ne w a b = true <-> HashedImage_eq w a b = false) /\
  (forall a b, HashedImage_eq w a b = true <->
     _hash_func a = _hash_func b /\
     realpath w (path a) = realpath w (path b)) /\
  (forall a b, hash_key a = hash_key b -> HashedImage_eq w a b = true) /\
  (forall a num bits,
     HashedImage_eq w a {| path := path a; _hash_func := _hash_func a;
                           _hash := num; _hash_as_bit_arr := bits |} = true) /\
  (forall a b, func_id (_hash_func a) <> func_id (_hash_func b) ->
     HashedImage_eq w a b = false).
Proof.
  assert (Hiff : forall a b, HashedImage_eq w a b = true <->
     _hash_func a = _hash_func b /\ realpath w (path a) = realpath w (path b)).
  { intros a b. rewrite HashedImage_eq_identity. unfold identity.
    split; [intros [= -> ->]; auto|intros [-> ->]; reflexivity]. }
  split; [intros a; apply Hiff; auto|]. split.
  { intros a b. destruct (HashedImage_eq w b a) eqn:Hba.
    - apply Hiff. apply Hiff in Hba as [-> ->]. auto.
    - destruct (HashedImage_eq w a b) eqn:Hab; [|reflexivity].
      apply Hiff in Hab as [Hf Hp].
      assert (HashedImage_eq w b a = true) by (apply Hiff; auto). congruence. }
  split.
  { intros a b c [Hf Hp]%Hiff [Hf' Hp']%Hiff. apply Hiff.
    split; congruence. }
  split; [intros a b; unfold HashedImage_ne; apply negb_true_iff|].
  split; [exact Hiff|]. split.
  { intros a b [= Hp Hf]. apply Hiff. rewrite Hp. auto. }
  split; [intros a num bits; apply Hiff; simpl; auto|].
  intros a b Hid. apply not_true_iff_false. intros [Hf _]%Hiff.
  apply Hid. rewrite Hf. reflexivity.
Qed.

(** X5. [__hash__] does not follow [__eq__]: two objects with the same
    hash function whose different path strings resolve to the same file
    are equal, yet the tuples their hashes are computed from differ. *)
Theorem equal_images_hash_differently (w : World) (a b : HashedImage) :
  _hash_func a = _hash_func b ->
  realpath w (path a) = realpath w (path b) ->
  path a <> path b ->
  HashedImage_eq w a b = true /\ hash_key a <> hash_key b.
Proof.
  intros Hf Hr Hp. split.
  - apply HashedImage_eq_identity. unfold identity. rewrite Hf, Hr. reflexivity.
  - unfold hash_key. intros [= H _]. contradiction.
Qed.

Lemma equal_images_hash_differently_witness :
  exists a b,
    HashedImage_init demo "pics/a.png" None = Ok a /\
    HashedImage_init demo "pics/link.png" None = Ok b /\
    HashedImage_eq demo a b = true /\ hash_key a <> hash_key b.
Proof.
  eexists _, _. split; [vm_compute; reflexivity|].
  split; [vm_compute; reflexivity|].
  apply equal_images_hash_differently;
    [reflexivity | reflexivity | discriminate].
Defined.

(** ** The match map in terms of the files *)

Lemma sqdist_sym (x y : list Z) : sqdist x y = sqdist y x.
Proof.
  revert y. induction x as [|a x IH]; intros [|b y]; simpl; try reflexivity.
  rewrite (IH y). ring.
Qed.

Lemma sqdist_refl (x : list Z) : sqdist x x = 0.
Proof. induction x as [|a x IH]; simpl; [reflexivity|]. rewrite IH. ring. Qed.

Lemma hamming_le_length (x y : list Z) : (hamming x y <= length x)%nat.
Proof.
  revert y. induction x as [|a x IH]; intros [|b y]; simpl; try lia.
  specialize (IH y). destruct (decide (a = b)); lia.
Qed.

Lemma within_sym (r : Z) (x y : list Z) : within r x y = within r y x.
Proof. unfold within. rewrite sqdist_sym. reflexivity. Qed.

(** The fingerprints of the store are those of the listed paths. *)
Lemma stored_iff (w : World) (e : string) (n : option string)
    (images : dict HashedImage) (v : HashedImage) :
  build_images w e n = Ok images ->
  (v ∈ dict_values images <->
   path v ∈ all_paths w e n /\ HashedImage_init w (path v) None = Ok v).
Proof.
  intros Hbuild. destruct (build_images_spec _ _ _ _ Hbuild) as [Hok Hkeys].
  split.
  - intros Hv. destruct (stored_image_inv _ _ _ Hok Hv) as (Hget & Hinit & _).
    split; [|exact Hinit]. apply Hkeys. apply list_elem_of_fmap.
    exists (path v, v). split; [reflexivity|apply dict_get_Some_elem, Hget].
  - intros [Hp Hinit]. apply Hkeys in Hp.
    destruct (dict_get (path v) images) as [h|] eqn:Hget;
      [|apply dict_get_None in Hget; contradiction].
    pose proof (proj2 Hok _ _ Hget) as Hh. rewrite Hinit in Hh.
    injection Hh as <-. apply list_elem_of_fmap. exists (path v, v).
    split; [reflexivity|apply dict_get_Some_elem, Hget].
Qed.

Lemma stored_key (w : World) (e : string) (n : option string)
    (images : dict HashedImage) (k : string) :
  build_images w e n = Ok images -> k ∈ all_paths w e n ->
  exists q, dict_get k images = Some q /\ HashedImage_init w k None = Ok q /\
            path q = k /\ _hash_func q = phash /\ q ∈ dict_values images.
Proof.
  intros Hbuild Hk. destruct (build_images_spec _ _ _ _ Hbuild) as [Hok Hkeys].
  apply Hkeys in Hk.
  destruct (dict_get k images) as [q|] eqn:Hget;
    [|apply dict_get_None in Hget; contradiction].
  pose proof (proj2 Hok _ _ Hget) as Hinit.
  destruct (HashedImage_init_inv _ _ _ _ Hinit) as (Hpath & Hf & _).
  exists q. repeat split; try assumption.
  apply list_elem_of_fmap. exists (k, q).
  split; [reflexivity|apply dict_get_Some_elem, Hget].
Qed.

Lemma ne_iff_realpath (w : World) (q v : HashedImage) :
  _hash_func q = phash -> _hash_func v = phash ->
  (HashedImage_ne w q v = true <->
   realpath w (path v) <> realpath w (path q)).
Proof.
  intros Hq Hv. unfold HashedImage_ne. rewrite negb_true_iff.
  rewrite <- not_true_iff_false, HashedImage_eq_identity. unfold identity.
  rewrite Hq, Hv. split.
  - intros H Heq. apply H. rewrite Heq. reflexivity.
  - intros H [= Heq]. apply H. symmetry. exact Heq.
Qed.

(** X6. The returned map, for a radius [0 <= r], in terms of the files:
    [k] lists [v] exactly when [k] is a query path, [v] is the fingerprint
    of a path the store was built from, that path resolves to another file
    than [k], and the fingerprints of [v] and [k] differ in at most [r * r]
    bits. *)
Theorem match_map_characterised (w : World) (e : string) (n : option string)
    (r : Z) (res : dict (list HashedImage)) :
  get_similar_images w e n r = Ok res -> 0 <= r ->
  forall k v, lists res k v <->
    k ∈ _list_images w (query_path e n) /\
    path v ∈ all_paths w e n /\
    HashedImage_init w (path v) None = Ok v /\
    realpath w (path v) <> realpath w k /\
    exists q, HashedImage_init w k None = Ok q /\
      Z.of_nat (hamming (as_row v) (as_row q)) <= r * r.
Proof.
  intros Hrun Hr k v.
  destruct (get_similar_images_spec _ _ _ _ _ Hrun)
    as (images & tree & Hbuild & _ & _ & Hl).
  destruct (build_images_spec _ _ _ _ Hbuild) as [Hok Hkeys].
  rewrite Hl. split.
  - intros (Hk & q & Hq & Hv & Hw & Hne).
    destruct (stored_key _ _ _ _ k Hbuild (query_path_listed _ _ _ _ Hk))
      as (q' & Hq' & Hinitq & Hpq & Hfq & Hqv).
    rewrite Hq in Hq'. injection Hq' as <-.
    destruct (stored_image_inv _ _ _ Hok Hv) as (_ & Hinitv & Hfv).
    split; [exact Hk|]. split; [apply (stored_iff w e n images v Hbuild), Hv|].
    split; [exact Hinitv|]. split.
    + rewrite <- Hpq. apply ne_iff_realpath; assumption.
    + exists q. split; [exact Hinitq|].
      rewrite <- (sqdist_hamming _ _ (stored_row_bits _ _ _ Hok Hv)
                    (stored_row_bits _ _ _ Hok Hqv)).
      unfold within in Hw. apply Z.leb_le in Hw. exact Hw.
  - intros (Hk & Hp & Hinitv & Hreal & q & Hinitq & Hham).
    split; [exact Hk|].
    destruct (stored_key _ _ _ _ k Hbuild (query_path_listed _ _ _ _ Hk))
      as (q' & Hq' & Hinitq' & Hpq & Hfq & Hqv).
    rewrite Hinitq in Hinitq'. injection Hinitq' as <-.
    assert (Hv : v ∈ dict_values images)
      by (apply (stored_iff w e n images v Hbuild); auto).
    destruct (stored_image_inv _ _ _ Hok Hv) as (_ & _ & Hfv).
    exists q. split; [exact Hq'|]. split; [exact Hv|]. split.
    + unfold within. apply Z.leb_le.
      rewrite (sqdist_hamming _ _ (stored_row_bits _ _ _ Hok Hv)
                 (stored_row_bits _ _ _ Hok Hqv)). exact Hham.
    + apply ne_iff_realpath; [assumption|assumption|]. rewrite Hpq. exact Hreal.
Qed.

Lemma match_map_characterised_witness :
  exists res v,
    get_similar_images demo "pics" (Some "new"%string) 4 = Ok res /\ 0 <= 4 /\
    HashedImage_init demo "pics/d.png" None = Ok v /\
    lists res "new/x.png" v.
Proof.
  eexists _, _. split; [vm_compute; reflexivity|]. split; [lia|].
  split; [vm_compute; reflexivity|].
  apply (match_map_characterised demo "pics" (Some "new"%string) 4 _ eq_refl);
    [lia|].
  split; [apply list_elem_of_In; vm_compute; tauto|].
  split; [apply list_elem_of_In; vm_compute; tauto|].
  split; [vm_compute; reflexivity|]. split; [vm_compute; discriminate|].
  eexists. split; [vm_compute; reflexivity|]. vm_compute. discriminate.
Defined.

(** X7. In self-comparison mode the match map is symmetric: when [a]
    lists the fingerprint of [b], [b] is a key too and lists the
    fingerprint of [a]. *)
Theorem self_comparison_symmetric (w : World) (e : string) (r : Z)
    (res : dict (list HashedImage)) (a : string) (vb : HashedImage) :
  get_similar_images w e None r = Ok res -> lists res a vb ->
  exists va, HashedImage_init w a None = Ok va /\ path va = a /\
             lists res (path vb) va.
Proof.
  intros Hrun Hab.
  destruct (get_similar_images_spec _ _ _ _ _ Hrun)
    as (images & tree & Hbuild & _ & _ & Hl).
  destruct (build_images_spec _ _ _ _ Hbuild) as [Hok Hkeys].
  destruct (proj1 (Hl _ _) Hab) as (Ha & q & Hq & Hv & Hw & Hne).
  destruct (stored_key _ _ _ _ a Hbuild (query_path_listed _ _ _ _ Ha))
    as (q' & Hq' & Hinitq & Hpq & Hfq & Hqv).
  rewrite Hq in Hq'. injection Hq' as <-.
  destruct (stored_image_inv _ _ _ Hok Hv) as (Hgetv & _ & Hfv).
  exists q. split; [exact Hinitq|]. split; [exact Hpq|]. apply Hl. split.
  - apply (stored_iff w e None images vb Hbuild) in Hv as [Hp _].
    unfold all_paths in Hp. rewrite app_nil_r in Hp. exact Hp.
  - exists vb. split; [exact Hgetv|]. split; [exact Hqv|]. split.
    + rewrite within_sym. exact Hw.
    + apply ne_iff_realpath; [assumption|assumption|].
      apply (ne_iff_realpath w q vb Hfq Hfv) in Hne. congruence.
Qed.

Lemma self_comparison_symmetric_witness :
  exists res vd va,
    get_similar_images demo "pics" None 4 = Ok res /\
    HashedImage_init demo "pics/d.png" None = Ok vd /\
    lists res "pics/b.png" vd /\
    HashedImage_init demo "pics/b.png" None = Ok va /\
    lists res "pics/d.png" va.
Proof.
  eexists _, _, _. split; [vm_compute; reflexivity|].
  split; [vm_compute; reflexivity|].
  match goal with |- lists ?res ?a ?vd /\ _ =>
    assert (Hl : lists res a vd)
      by (eexists; split; [right; left|right; left])
  end.
  split; [exact Hl|].
  destruct (self_comparison_symmetric demo "pics" 4 _ _ _ eq_refl Hl)
    as (va & Hinit & _ & Hba).
  vm_compute in Hinit. injection Hinit as <-.
  split; [vm_compute; reflexivity|exact Hba].
Defined.

(** ** Keys of the match map *)

Lemma defaultdict_append_keys {V : Type} (k : string) (v : V)
    (d : dict (list V)) :
  dict_keys (defaultdict_append k v d) =
  if decide (k ∈ dict_keys d) then dict_keys d else dict_keys d ++ [k].
Proof.
  induction d as [|[k0 vs0] d IH]; simpl.
  - destruct (decide (k ∈ [])) as [H|_]; [inversion H|reflexivity].
  - destruct (decide (k = k0)) as [->|Hne]; simpl.
    + destruct (decide (k0 ∈ k0 :: dict_keys d)) as [_|H]; [reflexivity|].
      exfalso. apply H. left.
    + rewrite IH. destruct (decide (k ∈ dict_keys d)) as [Hin|Hnin].
      * destruct (decide (k ∈ k0 :: dict_keys d)) as [_|H]; [reflexivity|].
        exfalso. apply H. right. exact Hin.
      * destruct (decide (k ∈ k0 :: dict_keys d)) as [H|_]; [|reflexivity].
        apply elem_of_cons in H as [H|H]; congruence.
Qed.

Lemma defaultdict_append_NoDup {V : Type} (k : string) (v : V)
    (d : dict (list V)) :
  NoDup (dict_keys d) -> NoDup (dict_keys (defaultdict_append k v d)).
Proof.
  intros Hnd. rewrite defaultdict_append_keys.
  destruct (decide (k ∈ dict_keys d)) as [Hin|Hnin]; [exact Hnd|].
  apply NoDup_app. split; [exact Hnd|]. split.
  - intros x Hx Hx'. apply list_elem_of_singleton in Hx'. congruence.
  - apply NoDup_singleton.
Qed.

Lemma query_image_NoDup (w : World) (images : dict HashedImage)
    (tree : KDTree_t) (r : Z) (img : string)
    (res res' : dict (list HashedImage)) :
  query_image w images (dict_values images) tree r img res = Ok res' ->
  NoDup (dict_keys res) -> NoDup (dict_keys res').
Proof.
  unfold query_image. intros Hrun Hnd.
  apply bind_Ok in Hrun as (q & _ & Hrun).
  apply bind_Ok in Hrun as (ids & _ & Hrun).
  apply (for_each_invariant (fun d => NoDup (dict_keys d))
           (collect_match w (dict_values images) img q) ids res res');
    [|exact Hnd|exact Hrun].
  intros id t t' _ Ht Hstep. unfold collect_match in Hstep.
  apply bind_Ok in Hstep as (other & _ & Hstep).
  destruct (HashedImage_ne w q other); injection Hstep as <-; [|exact Ht].
  apply defaultdict_append_NoDup, Ht.
Qed.

(** X8. The keys of the returned map are distinct and are query paths
    (in cross-collection mode: paths of the new images only); every listed
    match is the fingerprint of a path the store was built from. *)
Theorem match_map_keys (w : World) (e : string) (n : option string) (r : Z)
    (res : dict (list HashedImage)) :
  get_similar_images w e n r = Ok res ->
  NoDup (dict_keys res) /\
  (forall k, k ∈ dict_keys res -> k ∈ _list_images w (query_path e n)) /\
  (forall k v, lists res k v ->
     path v ∈ all_paths w e n /\ HashedImage_init w (path v) None = Ok v).
Proof.
  intros Hrun.
  destruct (get_similar_images_spec _ _ _ _ _ Hrun)
    as (images & tree & Hbuild & Htree & Hne & Hl).
  split; [|split].
  - unfold get_similar_images in Hrun. rewrite Hbuild in Hrun. simpl in Hrun.
    rewrite Htree in Hrun. simpl in Hrun.
    apply (for_each_invariant (fun d => NoDup (dict_keys d))
             (query_image w images (dict_values images) tree r)
             (_list_images w (query_path e n)) [] res);
      [|apply NoDup_nil_2|exact Hrun].
    intros img t t' _ Ht Hstep. apply (query_image_NoDup _ _ _ _ _ _ _ Hstep Ht).
  - intros k ([k' vs] & -> & Hin)%list_elem_of_fmap. simpl.
    pose proof (Hne _ _ Hin) as Hvs. destruct vs as [|v vs]; [congruence|].
    apply (Hl k' v). exists (v :: vs). split; [exact Hin|left].
  - intros k v (_ & q & _ & Hv & _)%Hl.
    apply (stored_iff w e n images v Hbuild), Hv.
Qed.

Lemma match_map_keys_witness :
  exists res,
    get_similar_images demo "pics" (Some "new"%string) 4 = Ok res /\
    NoDup (dict_keys res) /\
    forall k, k ∈ dict_keys res -> k ∈ _list_images demo "new".
Proof.
  eexists. split; [vm_compute; reflexivity|].
  destruct (match_map_keys demo "pics" (Some "new"%string) 4 _ eq_refl)
    as (Hnd & Hk & _).
  split; [exact Hnd|exact Hk].
Defined.

(** ** When the call returns *)

Lemma for_each_app {A S : Type} (xs ys : list A) (body : A -> S -> result S)
    (s : S) :
  for_each (xs ++ ys) body s = (s' ← for_each xs body s; for_each ys body s').
Proof.
  revert s. induction xs as [|x xs IH]; intros s; simpl; [reflexivity|].
  destruct (body x s) as [t|ex]; simpl; [apply IH|reflexivity].
Qed.

Lemma build_images_all_paths (w : World) (e : string) (n : option string) :
  build_images w e n = for_each (all_paths w e n) (add_image w) [].
Proof.
  unfold build_images, all_paths. rewrite for_each_app.
  destruct (for_each (_list_images w e) (add_image w) []) as [d|ex]; simpl;
    [|reflexivity].
  destruct n; reflexivity.
Qed.

(** X9. The first listed image that cannot be opened or hashed aborts
    the whole call with its exception: nothing is skipped and no partial
    map is returned. *)
Theorem first_unreadable_image_aborts (w : World) (e : string)
    (n : option string) (r : Z) (before after : list string) (p : string)
    (ex : exn) :
  all_paths w e n = before ++ p :: after ->
  all_hashable w before ->
  hash_int w phash p _hash_size = Raise ex ->
  get_similar_images w e n r = Raise ex.
Proof.
  intros Hpaths Hbefore Hp. unfold get_similar_images.
  rewrite build_images_all_paths, Hpaths, for_each_app.
  destruct (add_images_total w before [] Hbefore) as [d Hd].
  rewrite Hd. simpl. unfold add_image, HashedImage_init. simpl.
  rewrite Hp. reflexivity.
Qed.

Lemma first_unreadable_image_aborts_witness :
  let w := {| _list_images := fun _ => ["pics/a.png"; "pics/broken.png";
                                         "pics/b.png"]%string;
              hash_int := demo_hash_int; realpath := demo_realpath |} in
  all_paths w "pics" None = ["pics/a.png"%string] ++
                            "pics/broken.png"%string :: ["pics/b.png"%string] /\
  get_similar_images w "pics" None 4 = Raise ImageError.
Proof.
  intros w. split; [reflexivity|].
  apply (first_unreadable_image_aborts w "pics" None 4
           ["pics/a.png"%string] ["pics/b.png"%string] "pics/broken.png").
  - reflexivity.
  - intros p Hp. apply list_elem_of_In in Hp. simpl in Hp.
    destruct Hp as [<-|[]]. vm_compute. eauto.
  - reflexivity.
Defined.

(** X10. With a hash function that keeps to 64 bits, the call returns a
    map exactly when at least one image is listed and every listed image
    can be opened and hashed, whatever the radius. *)
Theorem returns_iff_hashable_and_nonempty (w : World) (e : string)
    (n : option string) (r : Z) :
  hash_width_ok w ->
  ((exists res, get_similar_images w e n r = Ok res) <->
   all_paths w e n <> [] /\ all_hashable w (all_paths w e n)).
Proof.
  intros Hw. split.
  - intros [res Hrun].
    destruct (get_similar_images_spec _ _ _ _ _ Hrun)
      as (images & tree & Hbuild & Htree & _ & _).
    split.
    + intros Hnil. destruct (KDTree_Ok _ _ Htree) as (_ & Hne & _).
      apply Hne. destruct images as [|[k h] images]; [reflexivity|exfalso].
      apply (elem_of_nil k). rewrite <- Hnil.
      apply (build_images_spec _ _ _ _ Hbuild). left.
    + intros p Hp.
      destruct (stored_key _ _ _ _ p Hbuild Hp) as (q & _ & Hinit & _).
      apply HashedImage_init_inv in Hinit as (_ & _ & Hnum & _). eauto.
  - intros [Hne Hall].
    destruct (build_images_total w e n Hall) as [images Hbuild].
    destruct (build_images_spec _ _ _ _ Hbuild) as [Hok Hkeys].
    destruct (KDTree_total (map as_row (dict_values images))
                           (_hash_size * BITS_PER_BYTE)) as [tree Htree].
    { intros Hnil. apply Hne. apply map_eq_nil, map_eq_nil in Hnil.
      subst images. destruct (all_paths w e n) as [|p ps]; [reflexivity|].
      exfalso. apply (elem_of_nil p). apply Hkeys. left. }
    { intros row (v & -> & Hv)%list_elem_of_fmap.
      apply (stored_row_length w images); assumption. }
    apply (get_similar_images_total w e n r images tree Hbuild Htree).
Qed.

Lemma returns_iff_hashable_and_nonempty_witness :
  (exists res, get_similar_images demo "new" None 9 = Ok res) <->
  all_paths demo "new" None <> [] /\ all_hashable demo (all_paths demo "new" None).
Proof.
  apply (returns_iff_hashable_and_nonempty demo "new" None 9).
  exact demo_hash_width_ok.
Defined.

(** ** Which files are matched *)

(** A query lists the fingerprint of another file as soon as the radius
    test passes. *)
Lemma lists_intro (w : World) (e : string) (n : option string) (r : Z)
    (res : dict (list HashedImage)) (k p' : string) :
  get_similar_images w e n r = Ok res ->
  k ∈ _list_images w (query_path e n) -> p' ∈ all_paths w e n ->
  realpath w p' <> realpath w k ->
  (forall images q v, build_images w e n = Ok images ->
     q ∈ dict_values images -> v ∈ dict_values images ->
     HashedImage_init w k None = Ok q -> HashedImage_init w p' None = Ok v ->
     within r (as_row q) (as_row v) = true) ->
  exists v, HashedImage_init w p' None = Ok v /\ lists res k v.
Proof.
  intros Hrun Hk Hp Hreal Hwithin.
  destruct (get_similar_images_spec _ _ _ _ _ Hrun)
    as (images & tree & Hbuild & _ & _ & Hl).
  destruct (stored_key _ _ _ _ k Hbuild (query_path_listed _ _ _ _ Hk))
    as (q & Hq & Hinitq & Hpq & Hfq & Hqv).
  destruct (stored_key _ _ _ _ p' Hbuild Hp)
    as (v & Hv & Hinitv & Hpv & Hfv & Hvv).
  exists v. split; [exact Hinitv|]. apply Hl. split; [exact Hk|].
  exists q. split; [exact Hq|]. split; [exact Hvv|]. split.
  - apply (Hwithin images); assumption.
  - apply ne_iff_realpath; [assumption|assumption|]. congruence.
Qed.

(** X11. With a hash function that keeps to 64 bits and a sensitivity of
    8 or more, every query lists every other file of the store: two
    64-bit vectors differ in at most 64 = 8 * 8 bits, and the radius
    bounds the square root of that number. *)
Theorem sensitivity_8_matches_every_other_file (w : World) (e : string)
    (n : option string) (r : Z) (res : dict (list HashedImage))
    (k p' : string) :
  hash_width_ok w -> 8 <= r ->
  get_similar_images w e n r = Ok res ->
  k ∈ _list_images w (query_path e n) -> p' ∈ all_paths w e n ->
  realpath w p' <> realpath w k ->
  exists v, HashedImage_init w p' None = Ok v /\ lists res k v.
Proof.
  intros Hw Hr Hrun Hk Hp Hreal.
  apply (lists_intro w e n r res k p' Hrun Hk Hp Hreal).
  intros images q v Hbuild Hq Hv _ _.
  destruct (build_images_spec _ _ _ _ Hbuild) as [Hok _].
  unfold within. apply Z.leb_le.
  rewrite (sqdist_hamming _ _ (stored_row_bits _ _ _ Hok Hv)
             (stored_row_bits _ _ _ Hok Hq)).
  pose proof (hamming_le_length (as_row v) (as_row q)) as Hle.
  rewrite (stored_row_length w images v Hw Hok Hv) in Hle.
  change (_hash_size * BITS_PER_BYTE)%nat with 64%nat in Hle. nia.
Qed.

Lemma sensitivity_8_matches_every_other_file_witness :
  exists res v,
    get_similar_images demo "pics" None 8 = Ok res /\
    HashedImage_init demo "pics/c.png" None = Ok v /\
    lists res "pics/a.png" v.
Proof.
  eexists _, _. split; [vm_compute; reflexivity|].
  destruct (sensitivity_8_matches_every_other_file demo "pics" None 8 _
              "pics/a.png" "pics/c.png" demo_hash_width_ok ltac:(lia) eq_refl)
    as (v & Hinit & Hl).
  - apply list_elem_of_In. vm_compute. tauto.
  - apply list_elem_of_In. vm_compute. tauto.
  - vm_compute. discriminate.
  - vm_compute in Hinit. injection Hinit as <-.
    split; [vm_compute; reflexivity|exact Hl].
Defined.

(** X12. Two files with the same hash are matched at every radius
    [0 <= r], also at 0: a query lists every other file of the store whose
    hash integer equals its own. *)
Theorem identical_hashes_always_match (w : World) (e : string)
    (n : option string) (r : Z) (res : dict (list HashedImage))
    (k p' : string) :
  0 <= r ->
  get_similar_images w e n r = Ok res ->
  k ∈ _list_images w (query_path e n) -> p' ∈ all_paths w e n ->
  hash_int w phash p' _hash_size = hash_int w phash k _hash_size ->
  realpath w p' <> realpath w k ->
  exists v, HashedImage_init w p' None = Ok v /\ lists res k v.
Proof.
  intros Hr Hrun Hk Hp Hsame Hreal.
  apply (lists_intro w e n r res k p' Hrun Hk Hp Hreal).
  intros images q v _ _ _ Hinitq Hinitv.
  destruct (HashedImage_init_inv _ _ _ _ Hinitq) as (_ & _ & Hnq & Hbq).
  destruct (HashedImage_init_inv _ _ _ _ Hinitv) as (_ & _ & Hnv & Hbv).
  simpl in Hnq, Hnv. rewrite Hsame, Hnq in Hnv. injection Hnv as Hnum.
  unfold within, as_row. rewrite Hbq, Hbv, Hnum, sqdist_refl.
  apply Z.leb_le. nia.
Qed.

Lemma identical_hashes_always_match_witness :
  let w := {| _list_images := fun _ => ["pics/a.png"; "pics/copy.png"]%string;
              hash_int := fun _ _ _ => Ok 77%N;
              realpath := fun p => p |} in
  exists res v,
    get_similar_images w "pics" None 0 = Ok res /\
    HashedImage_init w "pics/copy.png" None = Ok v /\
    lists res "pics/a.png" v.
Proof.
  intros w. eexists _, _. split; [vm_compute; reflexivity|].
  destruct (identical_hashes_always_match w "pics" None 0 _
              "pics/a.png" "pics/copy.png" ltac:(lia) eq_refl)
    as (v & Hinit & Hl).
  - apply list_elem_of_In. vm_compute. tauto.
  - apply list_elem_of_In. vm_compute. tauto.
  - reflexivity.
  - discriminate.
  - vm_compute in Hinit. injection Hinit as <-.
    split; [vm_compute; reflexivity|exact Hl].
Defined.

(** ** [similar_images_pairs] on any map, and [main] *)

Lemma size_add_le (X : gset (gset string)) (x : gset string) :
  (size (X ∪ {[x]}) <= size X + 1)%nat.
Proof.
  rewrite size_union_alt.
  assert (size (({[x]} : gset (gset string)) ∖ X) <= 1)%nat; [|lia].
  rewrite <- (size_singleton (C := gset (gset string)) x).
  apply subseteq_size. set_solver.
Qed.

Lemma add_pairs_of_size (k : string) (vs : list HashedImage)
    (acc : gset (gset string)) :
  (size (add_pairs_of k vs acc) <= size acc + length vs)%nat.
Proof.
  unfold add_pairs_of. revert acc.
  induction vs as [|v vs IH]; intros acc; simpl; [lia|].
  etransitivity; [apply IH|].
  pose proof (size_add_le acc (frozenset_pair k (path v))). lia.
Qed.

Lemma pairs_fold_size (d : dict (list HashedImage)) (acc : gset (gset string)) :
  (size (foldl (fun acc kv => add_pairs_of (fst kv) (snd kv) acc) acc d)
   <= size acc + sum_list_with (fun kv => length (snd kv)) d)%nat.
Proof.
  revert acc. induction d as [|[k vs] d IH]; intros acc; simpl; [lia|].
  etransitivity; [apply IH|].
  pose proof (add_pairs_of_size k vs acc). lia.
Qed.

Lemma elem_size_pos {A : Type} `{Countable A} (X : gset A) (x : A) :
  x ∈ X -> (0 < size X)%nat.
Proof.
  intros Hx. destruct (size X) eqn:Hs; [exfalso|lia].
  apply size_empty_inv in Hs. set_solver.
Qed.

(** X13. On any match map, produced by [get_similar_images] or not: the
    output holds exactly the sets {key, path of a listed match}; each has
    one or two elements, one when a key lists its own path; and there are
    at most as many sets as listed matches. *)
Theorem pairs_of_any_map (d : dict (list HashedImage)) :
  (forall p, p ∈ similar_images_pairs d <->
     exists k v, lists d k v /\ p = {[k; path v]}) /\
  (forall p, p ∈ similar_images_pairs d -> (1 <= size p <= 2)%nat) /\
  (forall k v, lists d k v -> path v = k ->
     ({[k]} : gset string) ∈ similar_images_pairs d) /\
  (size (similar_images_pairs d)
   <= sum_list_with (fun kv => length (snd kv)) d)%nat.
Proof.
  split; [apply similar_images_pairs_spec|]. split; [|split].
  - intros p (k & v & _ & ->)%similar_images_pairs_spec.
    unfold frozenset_pair. split.
    + apply (elem_size_pos _ k). set_solver.
    + rewrite size_union_alt, size_singleton.
      assert (size (({[path v]} : gset string) ∖ {[k]}) <= 1)%nat; [|lia].
      rewrite <- (size_singleton (C := gset string) (path v)).
      apply subseteq_size. set_solver.
  - intros k v Hl Hp. apply similar_images_pairs_spec. exists k, v.
    split; [exact Hl|]. unfold frozenset_pair. rewrite Hp. set_solver.
  - unfold similar_images_pairs.
    pose proof (pairs_fold_size d ∅) as H. rewrite size_empty in H. exact H.
Qed.

(** X14. [main] raises whatever [get_similar_images] raises. Otherwise,
    when the returned map is empty it reports that no pair was found and
    never calls [output_as_html]; when it is not, the set of pairs is not
    empty and [main] reports it: without an HTML path (none, or the empty
    string) as it is, with one after [output_as_html] has returned, and if
    [output_as_html] raises, [main] raises the same. *)
Theorem main_reports (w : World)
    (output_as_html : string -> gset (gset string) -> result unit)
    (e : string) (n : option string) (s : Z) (html : option string) :
  (forall ex, get_similar_images w e n s = Raise ex ->
     main w output_as_html e n s html = Raise ex) /\
  (forall res, get_similar_images w e n s = Ok res ->
     (res = [] -> main w output_as_html e n s html = Ok NoSimilarPairs) /\
     (res <> [] ->
        similar_images_pairs res <> ∅ /\
        match html_report_path html with
        | None =>
            main w output_as_html e n s html =
            Ok (SimilarPairs (similar_images_pairs res) None)
        | Some p =>
            (output_as_html p (similar_images_pairs res) = Ok tt ->
             main w output_as_html e n s html =
             Ok (SimilarPairs (similar_images_pairs res) (Some p))) /\
            (forall ex,
               output_as_html p (similar_images_pairs res) = Raise ex ->
               main w output_as_html e n s html = Raise ex)
        end)).
Proof.
  split.
  - intros ex Hrun. unfold main. rewrite Hrun. reflexivity.
  - intros res Hrun. unfold main. rewrite Hrun. simpl. split.
    + intros ->. reflexivity.
    + intros Hne.
      destruct (get_similar_images_spec _ _ _ _ _ Hrun)
        as (_ & _ & _ & _ & Hnonempty & _).
      destruct res as [|[k vs] res]; [congruence|].
      assert (Hin : (k, vs) ∈ (k, vs) :: res) by left.
      pose proof (Hnonempty _ _ Hin) as Hvs.
      destruct vs as [|v vs]; [congruence|].
      assert (Hp : frozenset_pair k (path v) ∈
                   similar_images_pairs ((k, v :: vs) :: res)).
      { apply similar_images_pairs_spec. exists k, v.
        split; [|reflexivity]. exists (v :: vs). split; [exact Hin|left]. }
      split; [intros Hempty; rewrite Hempty in Hp; set_solver|].
      destruct (decide (0 < size (similar_images_pairs ((k, v :: vs) :: res)))%nat)
        as [_|Hz]; [|exfalso; apply Hz; apply (elem_size_pos _ _ Hp)].
      destruct (html_report_path html) as [p|]; [|reflexivity].
      split.
      * intros Hout. rewrite Hout. reflexivity.
      * intros ex Hout. rewrite Hout. reflexivity.
Qed.

(** ** [_list_images]: which paths are kept *)

Lemma rfind_from_shift (c : ascii) (s : pystr) (i : nat) :
  rfind_from c s i = (fun j => (i + j)%nat) <$> rfind_from c s 0.
Proof.
  revert i. induction s as [|x s IH]; intros i; simpl; [reflexivity|].
  rewrite (IH (S i)), (IH 1%nat).
  destruct (rfind_from c s 0) as [j|]; simpl; [f_equal; lia|].
  destruct (decide (x = c)); simpl; [f_equal; lia|reflexivity].
Qed.

Lemma rfind_from_app (c : ascii) (s1 s2 : pystr) (i : nat) :
  rfind_from c (s1 ++ s2) i =
  match rfind_from c s2 (i + length s1) with
  | Some j => Some j
  | None => rfind_from c s1 i
  end.
Proof.
  revert i. induction s1 as [|x s1 IH]; intros i; simpl.
  - rewrite Nat.add_0_r. destruct (rfind_from c s2 i); reflexivity.
  - rewrite IH. replace (S i + length s1)%nat with (i + S (length s1))%nat by lia.
    destruct (rfind_from c s2 (i + S (length s1))); reflexivity.
Qed.

Lemma rfind_from_None (c : ascii) (s : pystr) (i : nat) :
  rfind_from c s i = None <-> c ∉ s.
Proof.
  revert i. induction s as [|x s IH]; intros i; simpl.
  - split; [intros _ H; inversion H|reflexivity].
  - rewrite not_elem_of_cons. destruct (rfind_from c s (S i)) eqn:Hr.
    + split; [discriminate|]. intros [_ H]. apply (IH (S i)) in H. congruence.
    + apply IH in Hr. destruct (decide (x = c)) as [->|Hne].
      * split; [discriminate|]. intros [H _]. congruence.
      * split; [auto|reflexivity].
Qed.

Lemma rfind_lt_length (c : ascii) (s : pystr) (j : nat) :
  rfind c s = Some j -> (j < length s)%nat.
Proof.
  unfold rfind. induction s as [|x s IH] in j |- *; simpl; [discriminate|].
  rewrite (rfind_from_shift c s 1).
  destruct (rfind_from c s 0) as [j'|]; simpl.
  - intros [= <-]. specialize (IH j' eq_refl). lia.
  - destruct (decide (x = c)); [intros [= <-]; lia|discriminate].
Qed.

Lemma rfind_from_lower (c : ascii) (s : pystr) (i : nat) :
  (forall x, lower_char x = c <-> x = c) ->
  rfind_from c (str_lower s) i = rfind_from c s i.
Proof.
  intros Hc. revert i. induction s as [|x s IH]; intros i; simpl; [reflexivity|].
  rewrite IH. destruct (rfind_from c s (S i)); [reflexivity|].
  destruct (decide (lower_char x = c)) as [H|H], (decide (x = c)) as [H'|H'];
    try reflexivity; exfalso.
  - apply H', Hc, H.
  - apply H, Hc, H'.
Qed.

Lemma lower_char_dot (x : ascii) : lower_char x = "."%char <-> x = "."%char.
Proof.
  destruct x as [[] [] [] [] [] [] [] []]; vm_compute; split; congruence.
Qed.

Lemma lower_char_slash (x : ascii) : lower_char x = "/"%char <-> x = "/"%char.
Proof.
  destruct x as [[] [] [] [] [] [] [] []]; vm_compute; split; congruence.
Qed.

(** An extension that lower-cases to an image extension starts with its
    only dot, holds no slash and has at least two characters. *)
Lemma image_ext_shape (ext : pystr) :
  str_lower ext ∈ IMAGE_EXTENSIONS ->
  rfind "."%char ext = Some 0%nat /\ rfind "/"%char ext = None /\
  (2 <= length ext)%nat.
Proof.
  intros Hin. unfold rfind.
  rewrite <- (rfind_from_lower "." ext 0 lower_char_dot).
  rewrite <- (rfind_from_lower "/" ext 0 lower_char_slash).
  replace (length ext) with (length (str_lower ext))
    by (unfold str_lower; apply length_map).
  unfold IMAGE_EXTENSIONS in Hin. simpl in Hin.
  repeat (apply elem_of_cons in Hin as [->|Hin]; [repeat split; simpl; lia|]).
  inversion Hin.
Qed.

Lemma name_suffix_split (stem ext : pystr) :
  stem <> [] -> str_lower ext ∈ IMAGE_EXTENSIONS ->
  name_suffix (stem ++ ext) = ext.
Proof.
  intros Hstem Hext. destruct (image_ext_shape ext Hext) as (Hdot & _ & Hlen).
  unfold name_suffix, rfind in *. rewrite rfind_from_app. simpl.
  rewrite (rfind_from_shift "." ext (length stem)), Hdot. simpl.
  rewrite Nat.add_0_r, length_app.
  assert (Hpos : (0 < length stem)%nat) by (destruct stem; simpl; [congruence|lia]).
  replace (0 <? length stem)%nat with true by (symmetry; apply Nat.ltb_lt; lia).
  replace (length stem <? length stem + length ext - 1)%nat with true
    by (symmetry; apply Nat.ltb_lt; lia).
  simpl. rewrite drop_app_length. reflexivity.
Qed.

Lemma path_name_join (dir name : pystr) :
  "/"%char ∉ name -> path_name (dir ++ "/"%char :: name) = name.
Proof.
  intros Hname. unfold path_name, rfind. rewrite rfind_from_app. simpl.
  rewrite (proj2 (rfind_from_None "/" name (S (length dir))) Hname).
  destruct (decide ("/"%char = "/"%char)); [|congruence].
  replace (S (length dir)) with (length (dir ++ ["/"%char]))
    by (rewrite length_app; simpl; lia).
  replace (dir ++ "/"%char :: name) with ((dir ++ ["/"%char]) ++ name)
    by (rewrite <- app_assoc; reflexivity).
  apply drop_app_length.
Qed.

Lemma is_image_path_iff (p : pystr) :
  is_image_path p = true <->
  exists stem ext, path_name p = stem ++ ext /\ stem <> [] /\
                   str_lower ext ∈ IMAGE_EXTENSIONS.
Proof.
  unfold is_image_path. rewrite bool_decide_eq_true. split.
  - intros Hin. unfold name_suffix in Hin.
    destruct (rfind "." (path_name p)) as [i|] eqn:Hr;
      [|vm_compute in Hin; repeat (apply elem_of_cons in Hin as [Hin|Hin];
          [discriminate|]); inversion Hin].
    destruct ((0 <? i)%nat && (i <? length (path_name p) - 1)%nat) eqn:Hc;
      [|vm_compute in Hin; repeat (apply elem_of_cons in Hin as [Hin|Hin];
          [discriminate|]); inversion Hin].
    apply andb_true_iff in Hc as [Hi _]. apply Nat.ltb_lt in Hi.
    pose proof (rfind_lt_length _ _ _ Hr) as Hlt.
    exists (take i (path_name p)), (drop i (path_name p)).
    split; [symmetry; apply take_drop|]. split; [|exact Hin].
    intros Hnil. apply (f_equal length) in Hnil.
    rewrite length_take in Hnil. simpl in Hnil. lia.
  - intros (stem & ext & -> & Hstem & Hext).
    rewrite (name_suffix_split stem ext Hstem Hext). exact Hext.
Qed.

(** X15. Of the paths [rglob] yields, [_list_images] keeps, in the same
    order, exactly those whose name is a non-empty stem followed by an
    extension that lower-cases to one of [.jpeg .jpg .gif .png .bmp]; so a
    file [stem.EXT] in any directory is kept whatever the case of [EXT],
    and a name that is only an extension, such as [.png], is not. *)
Theorem list_images_keeps_image_suffixes (rglob : list pystr) :
  (forall p, p ∈ list_images_from rglob <->
     p ∈ rglob /\
     exists stem ext, path_name p = stem ++ ext /\ stem <> [] /\
                      str_lower ext ∈ IMAGE_EXTENSIONS) /\
  sublist (list_images_from rglob) rglob /\
  (forall dir stem ext,
     "/"%char ∉ stem -> stem <> [] -> str_lower ext ∈ IMAGE_EXTENSIONS ->
     (dir ++ "/"%char :: stem ++ ext) ∈ rglob ->
     (dir ++ "/"%char :: stem ++ ext) ∈ list_images_from rglob) /\
  (forall dir ext,
     str_lower ext ∈ IMAGE_EXTENSIONS ->
     (dir ++ "/"%char :: ext) ∉ list_images_from rglob).
Proof.
  assert (Hiff : forall p, p ∈ list_images_from rglob <->
     p ∈ rglob /\
     exists stem ext, path_name p = stem ++ ext /\ stem <> [] /\
                      str_lower ext ∈ IMAGE_EXTENSIONS).
  { intros p. unfold list_images_from.
    rewrite list_elem_of_filter, is_image_path_iff. tauto. }
  split; [exact Hiff|]. split; [apply sublist_filter|]. split.
  - intros dir stem ext Hslash Hstem Hext Hin. apply Hiff.
    split; [exact Hin|]. exists stem, ext. split; [|auto].
    apply path_name_join. destruct (image_ext_shape ext Hext) as (_ & Hno & _).
    apply (rfind_from_None "/" ext 0) in Hno.
    rewrite elem_of_app. tauto.
  - intros dir ext Hext Hin. apply Hiff in Hin as [_ Hin].
    apply is_image_path_iff in Hin. unfold is_image_path in Hin.
    apply bool_decide_eq_true in Hin.
    destruct (image_ext_shape ext Hext) as (Hdot & Hno & _).
    apply (rfind_from_None "/" ext 0) in Hno.
    rewrite (path_name_join dir ext Hno) in Hin.
    unfold name_suffix in Hin. rewrite Hdot in Hin. simpl in Hin.
    vm_compute in Hin.
    repeat (apply elem_of_cons in Hin as [Hin|Hin]; [discriminate|]).
    inversion Hin.
Qed.
